(** * koushin: server configuration, session cookie and HTTP handlers

    A shallow embedding of the server of the Go package [koushin]: the
    [Server] configuration parsed from the IMAP and SMTP URLs, the session
    cookie, the login and logout handlers, the authentication middleware and
    the HTTP error handler.  Calls into collaborators (the IMAP client, the
    connection pool, echo's response writer and logger) are recorded, in
    order, in a trace carried by a small state monad. *)

From stdpp Require Import gmap strings list fin_maps pretty.
From Stdlib Require Import Ascii ZArith Lia.

Open Scope string_scope.
Open Scope Z_scope.

(** ** Go errors *)

(** A Go [error] value.  The two sentinels are compared by identity in the
    source ([err == http.ErrNoCookie], [err == ErrSessionExpired]);
    [*echo.HTTPError] is recognised by a type assertion; every other error
    (built by [fmt.Errorf] or returned by a library) is a message. *)
Inductive error : Type :=
| ErrNoCookie
| ErrSessionExpired
| HTTPError (code : Z) (message : string)
| ErrorString (msg : string).

Inductive result (A : Type) : Type :=
| Ok (a : A)
| Err (e : error).
Arguments Ok {A} a.
Arguments Err {A} e.

(** [err.Error()].  The text of [ErrNoCookie] is net/http's and the format of
    an [HTTPError] is echo's; [ErrSessionExpired] is declared with the pool,
    outside the sources at hand, and its text is taken from its name. *)
Definition Error_ (err : error) : string :=
  match err with
  | ErrNoCookie => "http: named cookie not present"
  | ErrSessionExpired => "session expired"
  | HTTPError code message =>
      "code=" ++ pretty code ++ ", message=" ++ message
  | ErrorString msg => msg
  end.

(** [fmt.Errorf(prefix ++ "%v", err)] *)
Definition Errorf (prefix : string) (err : error) : error :=
  ErrorString (prefix ++ Error_ err).

(** The type assertion of [err] to echo's HTTPError: its code, if it is one. *)
Definition as_HTTPError (err : error) : option Z :=
  match err with
  | HTTPError code _ => Some code
  | _ => None
  end.

(** ** Server configuration *)

Module http.
Definition StatusOK : Z := 200.
Definition StatusFound : Z := 302.
Definition StatusInternalServerError : Z := 500.
End http.

(** The fields of [url.URL] that the package reads. *)
Record URL : Type := { Scheme : string; Host : string }.

Record imapConf (ConnPool : Type) : Type := {
  imap_host : string;
  imap_tls : bool;
  imap_insecure : bool;
  imap_pool : option ConnPool   (* [*ConnPool]; [None] is the nil pointer *)
}.
Arguments imap_host {ConnPool} _.
Arguments imap_tls {ConnPool} _.
Arguments imap_insecure {ConnPool} _.
Arguments imap_pool {ConnPool} _.

Record smtpConf : Type := {
  smtp_host : string;
  smtp_tls : bool;
  smtp_insecure : bool
}.

Record Server (ConnPool : Type) : Type := {
  imap : imapConf ConnPool;
  smtp : smtpConf
}.
Arguments imap {ConnPool} _.
Arguments smtp {ConnPool} _.

Section Configuration.
Context {ConnPool : Type}.
(** [NewConnPool()], the empty pool. *)
Variable NewConnPool : ConnPool.
(** [url.Parse] of the Go standard library. *)
Variable url_Parse : string -> result URL.

(** [&Server{}]: every field at its zero value. *)
Definition zeroServer : Server ConnPool :=
  {| imap := {| imap_host := ""; imap_tls := false; imap_insecure := false;
                imap_pool := None |};
     smtp := {| smtp_host := ""; smtp_tls := false; smtp_insecure := false |} |}.

Definition set_imap_host (h : string) (s : Server ConnPool) : Server ConnPool :=
  {| imap := {| imap_host := h; imap_tls := imap_tls (imap s);
                imap_insecure := imap_insecure (imap s);
                imap_pool := imap_pool (imap s) |};
     smtp := smtp s |}.
Definition set_imap_tls (b : bool) (s : Server ConnPool) : Server ConnPool :=
  {| imap := {| imap_host := imap_host (imap s); imap_tls := b;
                imap_insecure := imap_insecure (imap s);
                imap_pool := imap_pool (imap s) |};
     smtp := smtp s |}.
Definition set_imap_insecure (b : bool) (s : Server ConnPool) : Server ConnPool :=
  {| imap := {| imap_host := imap_host (imap s); imap_tls := imap_tls (imap s);
                imap_insecure := b;
                imap_pool := imap_pool (imap s) |};
     smtp := smtp s |}.
Definition set_imap_pool (p : option ConnPool) (s : Server ConnPool) : Server ConnPool :=
  {| imap := {| imap_host := imap_host (imap s); imap_tls := imap_tls (imap s);
                imap_insecure := imap_insecure (imap s);
                imap_pool := p |};
     smtp := smtp s |}.
Definition set_smtp_host (h : string) (s : Server ConnPool) : Server ConnPool :=
  {| imap := imap s;
     smtp := {| smtp_host := h; smtp_tls := smtp_tls (smtp s);
                smtp_insecure := smtp_insecure (smtp s) |} |}.
Definition set_smtp_tls (b : bool) (s : Server ConnPool) : Server ConnPool :=
  {| imap := imap s;
     smtp := {| smtp_host := smtp_host (smtp s); smtp_tls := b;
                smtp_insecure := smtp_insecure (smtp s) |} |}.
Definition set_smtp_insecure (b : bool) (s : Server ConnPool) : Server ConnPool :=
  {| imap := imap s;
     smtp := {| smtp_host := smtp_host (smtp s); smtp_tls := smtp_tls (smtp s);
                smtp_insecure := b |} |}.

(** [func (s *Server) parseIMAPURL(imapURL string) error].  The receiver
    is mutated in place; the model returns its final value with the error. *)
Definition parseIMAPURL (s : Server ConnPool) (imapURL : string)
  : Server ConnPool * option error :=
  match url_Parse imapURL with
  | Err err => (s, Some (Errorf "failed to parse IMAP server URL: " err))
  | Ok u =>
      let s := set_imap_host (Host u) s in
      if String.eqb (Scheme u) "imap" then (s, None)
      else if String.eqb (Scheme u) "imaps" then (set_imap_tls true s, None)
      else if String.eqb (Scheme u) "imap+insecure" then
        (set_imap_insecure true s, None)
      else (s, Some (ErrorString ("unrecognized IMAP URL scheme: " ++ Scheme u)))
  end.

(** [func (s *Server) parseSMTPURL(smtpURL string) error] *)
Definition parseSMTPURL (s : Server ConnPool) (smtpURL : string)
  : Server ConnPool * option error :=
  match url_Parse smtpURL with
  | Err err => (s, Some (Errorf "failed to parse SMTP server URL: " err))
  | Ok u =>
      let s := set_smtp_host (Host u) s in
      if String.eqb (Scheme u) "smtp" then (s, None)
      else if String.eqb (Scheme u) "smtps" then (set_smtp_tls true s, None)
      else if String.eqb (Scheme u) "smtp+insecure" then
        (set_smtp_insecure true s, None)
      else (s, Some (ErrorString ("unrecognized SMTP URL scheme: " ++ Scheme u)))
  end.

(** [func NewServer(imapURL, smtpURL string)], returning the server (or nil)
    and the error (or nil). *)
Definition NewServer (imapURL smtpURL : string)
  : option (Server ConnPool) * option error :=
  let s := zeroServer in
  match parseIMAPURL s imapURL with
  | (_, Some err) => (None, Some err)
  | (s, None) =>
      let s := set_imap_pool (Some NewConnPool) s in
      if negb (String.eqb smtpURL "") then
        match parseSMTPURL s smtpURL with
        | (_, Some err) => (None, Some err)
        | (s, None) => (Some s, None)
        end
      else (Some s, None)
  end.

(** The transport mode a configuration selects, read off its two flags. *)
Definition imap_flags (s : Server ConnPool) : bool * bool :=
  (imap_tls (imap s), imap_insecure (imap s)).
Definition smtp_flags (s : Server ConnPool) : bool * bool :=
  (smtp_tls (smtp s), smtp_insecure (smtp s)).

(** A URL is accepted when [url.Parse] succeeds and its scheme is one of
    [schemes]. *)
Definition url_accepted (schemes : list string) (rawURL : string) : bool :=
  match url_Parse rawURL with
  | Err _ => false
  | Ok u => bool_decide (Scheme u ∈ schemes)
  end.

Definition imap_schemes : list string := ["imap"; "imaps"; "imap+insecure"].
Definition smtp_schemes : list string := ["smtp"; "smtps"; "smtp+insecure"].
End Configuration.

(** ** Sessions, cookies and requests *)

(** An [*imapclient.Client]: the identity of one IMAP connection. *)
Definition Conn : Type := nat.

(** What the handlers read from a [*Session]. *)
Record Session : Type := {
  imapConn : Conn;
  username : string;
  password : string
}.

Definition cookieName : string := "koushin_session".

(** The fields of [http.Cookie] that decide its lifetime and visibility.
    [Expires] is a [time.Time] in Unix seconds, [None] being the zero time
    of a field left out of the literal; [MaxAge = 0] means no Max-Age. *)
Record Cookie : Type := {
  Name : string;
  Value : string;
  Expires : option Z;
  MaxAge : Z;
  Secure : bool;
  HttpOnly : bool
}.

(** [var aLongTimeAgo = time.Unix(233431200, 0)] *)
Definition aLongTimeAgo : Z := 233431200.



(** The parts of an incoming request the handlers look at: the path of the
    matched route, the method, the request cookies in header order and the
    form values in order. *)
Record Request : Type := {
  Path : string;
  Method : string;
  Cookies : list (string * string);
  Form : list (string * string)
}.

Fixpoint assoc (name : string) (l : list (string * string)) : option string :=
  match l with
  | [] => None
  | (k, v) :: l' => if String.eqb k name then Some v else assoc name l'
  end.

(** [ctx.Cookie(name)]: the first cookie of that name, or [http.ErrNoCookie]. *)
Definition ctx_Cookie (req : Request) (name : string) : result string :=
  match assoc name (Cookies req) with
  | Some v => Ok v
  | None => Err ErrNoCookie
  end.

(** [ctx.FormValue(name)]: the first value of that name, or the empty string. *)
Definition FormValue (req : Request) (name : string) : string :=
  match assoc name (Form req) with
  | Some v => v
  | None => ""
  end.

(** [type context struct]; [session] and [conn] are pointers, nil until the
    middleware fills them. *)
Record context (ConnPool : Type) : Type := {
  request : Request;
  server : Server ConnPool;
  session : option Session;
  conn : option Conn
}.
Arguments request {ConnPool} _.
Arguments server {ConnPool} _.
Arguments session {ConnPool} _.
Arguments conn {ConnPool} _.

(** ** Effects *)

(** One call into a collaborator. *)
Inductive Event : Type :=
| EvConnectIMAP
| EvLogin (c : Conn) (user pass : string)
| EvLogout (c : Conn)
| EvPoolPut (c : Conn) (user pass : string)
| EvPoolGet (token : string)
| EvSetCookie (cookie : Cookie)
| EvRender (code : Z) (name : string)
| EvRedirect (code : Z) (url : string)
| EvString (code : Z) (body : string)
| EvLogError (err : error).

(** The collaborators of the handlers.  [Put] and [Get] are the pool's
    methods, acting on the pool's state; [connectIMAP] is the server's dial;
    [Login] and [Logout] are the IMAP client's commands, with the error they
    return, if any. *)
Record Env (ConnPool : Type) : Type := {
  Put : Conn -> string -> string -> ConnPool -> result string * ConnPool;
  Get : string -> ConnPool -> result Session * ConnPool;
  connectIMAP : Server ConnPool -> result Conn;
  Login : Conn -> string -> string -> option error;
  Logout : Conn -> option error
}.
Arguments Put {ConnPool} _.
Arguments Get {ConnPool} _.
Arguments connectIMAP {ConnPool} _.
Arguments Login {ConnPool} _.
Arguments Logout {ConnPool} _.

(** The state a request runs in: the pool behind [server.imap.pool] and the
    calls made so far, oldest first. *)
Record World (ConnPool : Type) : Type := {
  pool : ConnPool;
  trace : list Event
}.
Arguments pool {ConnPool} _.
Arguments trace {ConnPool} _.

(** A computation returns a value and a new world, or panics ([None]). *)
Definition M (ConnPool A : Type) : Type :=
  World ConnPool -> option (A * World ConnPool).

Definition ret {ConnPool A : Type} (a : A) : M ConnPool A :=
  fun w => Some (a, w).

Definition bind {ConnPool A B : Type} (m : M ConnPool A) (k : A -> M ConnPool B)
  : M ConnPool B :=
  fun w => match m w with
           | Some (a, w') => k a w'
           | None => None
           end.

Definition panic {ConnPool A : Type} : M ConnPool A := fun _ => None.

Declare Scope monad_scope.
Delimit Scope monad_scope with monad.
Notation "'let*' x := c 'in' k" := (bind c (fun x => k))
  (at level 10, x name, c at level 100, k at level 200) : monad_scope.
Notation "c >> k" := (bind c (fun _ => k))
  (at level 100, k at level 200, right associativity) : monad_scope.
Open Scope monad_scope.

Definition emit {ConnPool : Type} (ev : Event) : M ConnPool unit :=
  fun w => Some (tt, {| pool := pool w; trace := trace w ++ [ev] |}).

(** ** The handlers *)

Section Handlers.
Context {ConnPool : Type}.
Variable E : Env ConnPool.

Local Abbreviation M := (M ConnPool).

(** [ctx.server.imap.pool.Put(conn, username, password)] *)
Definition pool_Put (c : Conn) (user pass : string) : M (result string) :=
  fun w =>
    let '(r, p) := Put E c user pass (pool w) in
    Some (r, {| pool := p; trace := trace w ++ [EvPoolPut c user pass] |}).

(** [ctx.server.imap.pool.Get(token)] *)
Definition pool_Get (token : string) : M (result Session) :=
  fun w =>
    let '(r, p) := Get E token (pool w) in
    Some (r, {| pool := p; trace := trace w ++ [EvPoolGet token] |}).

(** [ctx.server.connectIMAP()] *)
Definition server_connectIMAP (s : Server ConnPool) : M (result Conn) :=
  emit EvConnectIMAP >> ret (connectIMAP E s).

(** [conn.Login(username, password)] *)
Definition conn_Login (c : Conn) (user pass : string) : M (option error) :=
  emit (EvLogin c user pass) >> ret (Login E c user pass).

(** [conn.Logout()] *)
Definition conn_Logout (c : Conn) : M (option error) :=
  emit (EvLogout c) >> ret (Logout E c).

(** echo's [c.Render(code, name, data)]; the template is taken to execute
    without error. *)
Definition Render (code : Z) (name : string) : M (option error) :=
  emit (EvRender code name) >> ret None.

(** echo's [c.Redirect(code, url)], which refuses a code outside 300..308. *)
Definition Redirect (code : Z) (url : string) : M (option error) :=
  if (code <? 300) || (308 <? code)
  then ret (Some (ErrorString "invalid redirect status code"))
  else emit (EvRedirect code url) >> ret None.

(** echo's [c.String(code, s)] *)
Definition String_ (code : Z) (body : string) : M (option error) :=
  emit (EvString code body) >> ret None.

(** [c.Logger().Error(err)] *)
Definition Logger_Error (err : error) : M unit :=
  emit (EvLogError err).

(** [func (c *context) setToken(token string)] *)
Definition setToken (token : string) : M unit :=
  let cookie := {| Name := cookieName; Value := token; Expires := None;
                   MaxAge := 0; Secure := false; HttpOnly := true |} in
  let cookie :=
    if String.eqb token ""
    then {| Name := Name cookie; Value := Value cookie;
            Expires := Some aLongTimeAgo;
            MaxAge := MaxAge cookie; Secure := Secure cookie;
            HttpOnly := HttpOnly cookie |}
    else cookie in
  emit (EvSetCookie cookie).

(** [func handleLogin(ectx echo.Context) error] *)
Definition handleLogin (ctx : context ConnPool) : M (option error) :=
  let username := FormValue (request ctx) "username" in
  let password := FormValue (request ctx) "password" in
  if negb (String.eqb username "") && negb (String.eqb password "") then
    let* r := server_connectIMAP (server ctx) in
    match r with
    | Err err => ret (Some err)
    | Ok conn =>
        let* lr := conn_Login conn username password in
        match lr with
        | Some _ =>
            conn_Logout conn >>
            Render http.StatusOK "login.html"
        | None =>
            let* pr := pool_Put conn username password in
            match pr with
            | Err err =>
                ret (Some (Errorf "failed to put connection in pool: " err))
            | Ok token =>
                setToken token >>
                Redirect http.StatusFound "/mailbox/INBOX"
            end
        end
    end
  else Render http.StatusOK "login.html".

(** The handler of [GET /logout] registered in [New].  [ctx.conn] is
    dereferenced, which panics on nil. *)
Definition handleLogout (ctx : context ConnPool) : M (option error) :=
  match conn ctx with
  | None => panic
  | Some c =>
      let* lr := conn_Logout c in
      match lr with
      | Some err => ret (Some (Errorf "failed to logout: " err))
      | None =>
          setToken "" >>
          Redirect http.StatusFound "/login"
      end
  end.

(** [e.HTTPErrorHandler] installed by [New]. *)
Definition HTTPErrorHandler (err : error) : M unit :=
  let code := http.StatusInternalServerError in
  let* code := match as_HTTPError err with
               | Some he_code => ret he_code
               | None => Logger_Error err >> ret code
               end in
  String_ code (Error_ err) >>
  ret tt.

(** What the middleware does with a request: it returns (an error or nil)
    without calling the page handler, or it ends in [return next(ctx)]. *)
Inductive outcome : Type :=
| Return (err : option error)
| Next (ctx : context ConnPool).

Definition returning (m : M (option error)) : M outcome :=
  let* r := m in ret (Return r).

(** The middleware installed by [e.Use] in [New], for the server [s]. *)
Definition middleware (s : Server ConnPool) (req : Request) : M outcome :=
  let ctx := {| request := req; server := s; session := None; conn := None |} in
  match ctx_Cookie req cookieName with
  | Err ErrNoCookie =>
      if String.eqb (Path req) "/login"
      then ret (Next ctx)
      else returning (Redirect http.StatusFound "/login")
  | Err err => ret (Return (Some err))
  | Ok value =>
      let* r := pool_Get value in
      match r with
      | Err ErrSessionExpired =>
          setToken "" >>
          returning (Redirect http.StatusFound "/login")
      | Err err => ret (Return (Some err))
      | Ok sess =>
          ret (Next {| request := req; server := s; session := Some sess;
                       conn := Some (imapConn sess) |})
      end
  end.

(** echo serving one request routed to the page handler [h]: the middleware
    runs first, and an error returned by either goes to the error handler. *)
Definition serve (s : Server ConnPool) (h : context ConnPool -> M (option error))
    (req : Request) : M unit :=
  let* o := middleware s req in
  let* r := match o with
          | Return r => ret r
          | Next ctx => h ctx
          end in
  match r with
  | Some err => HTTPErrorHandler err
  | None => ret tt
  end.

End Handlers.

(** ** The session store *)

Module SessionStore.

(** Modelled from the spec: the pool ([ConnPool], [NewConnPool], [Put],
    [Get], [ErrSessionExpired]) is declared in a file that is not among the
    sources.  A session entry as in section 3 of the specification; the
    per-entry lock is left out, requests being taken one at a time. *)
Record Entry : Type := {
  token : string;
  connection : Conn;
  user : string;
  credential : string;
  lastActive : Z
}.

(** Modelled from the spec: the pool is not among the sources.  The store is
    the table from token to entry (section 3), together with the number of
    tokens drawn from the generator so far and the connections the store has
    logged out. *)
Record Store : Type := {
  entries : gmap string Entry;
  drawn : nat;
  closed : gset Conn
}.

(** Modelled from the spec: the collaborators and tunables of the pool are
    not among the sources.  [NewToken k] is the k-th value of the token
    generator (4.1), [attempts] bounds the regenerations of one [Put],
    [keepAlive] is the idle time after which [Get] probes the connection and
    [idleTimeout] the one after which the reaper evicts (4.3, 4.4); [probe]
    is the liveness probe and [reauth] the connection factory's dial and
    authentication with cached credentials (4.2). *)
Record Params : Type := {
  NewToken : nat -> string;
  attempts : nat;
  keepAlive : Z;
  idleTimeout : Z;
  probe : Conn -> bool;
  reauth : string -> string -> option Conn
}.

(** Modelled from the spec: [NewConnPool] is not among the sources; a new
    store has no entry. *)
Definition NewConnPool : Store :=
  {| entries := ∅; drawn := 0%nat; closed := ∅ |}.

(** Modelled from the spec: the token generation of [Put] is not among the
    sources.  A generated token that already names an entry is rejected and
    another one is generated (4.1), at most [fuel] times. *)
Fixpoint fresh_token (P : Params) (fuel k : nat) (m : gmap string Entry)
  : option (string * nat) :=
  match fuel with
  | O => None
  | S fuel' =>
      let t := NewToken P k in
      match m !! t with
      | None => Some (t, S k)
      | Some _ => fresh_token P fuel' (S k) m
      end
  end.

(** Modelled from the spec: [Put] is not among the sources.  It registers a
    new entry under a freshly generated token and returns the token, or
    fails when no token could be allocated (4.3). *)
Definition Put (P : Params) (now : Z) (c : Conn) (u p : string) (st : Store)
  : result string * Store :=
  match fresh_token P (attempts P) (drawn st) (entries st) with
  | None => (Err (ErrorString "pool: cannot allocate a session"), st)
  | Some (t, k) =>
      let e := {| token := t; connection := c; user := u; credential := p;
                  lastActive := now |} in
      (Ok t, {| entries := <[t := e]> (entries st); drawn := k;
                closed := closed st |})
  end.

Definition session_of (e : Entry) : Session :=
  {| imapConn := connection e; username := user e; password := credential e |}.

(** Modelled from the spec: [Get] is not among the sources.  Steps 1, 3, 4
    and 5 of 4.3: an unknown token fails with [SessionExpired]; otherwise the
    activity time is refreshed, a connection idle past the keep-alive
    threshold is probed and, if dead, replaced by one re-authentication; when
    that fails the entry is removed and the call fails with SessionBroken. *)
Definition Get (P : Params) (now : Z) (t : string) (st : Store)
  : result Session * Store :=
  match entries st !! t with
  | None => (Err ErrSessionExpired, st)
  | Some e =>
      let keep (c : Conn) :=
        let e' := {| token := token e; connection := c; user := user e;
                     credential := credential e; lastActive := now |} in
        (Ok (session_of e'),
         {| entries := <[t := e']> (entries st); drawn := drawn st;
            closed := closed st |}) in
      if (keepAlive P <? now - lastActive e) && negb (probe P (connection e))
      then match reauth P (user e) (credential e) with
           | Some c' => keep c'
           | None =>
               (Err (ErrorString "session broken"),
                {| entries := delete t (entries st); drawn := drawn st;
                   closed := closed st |})
           end
      else keep (connection e)
  end.

(** Modelled from the spec: [Delete] is not among the sources.  It removes
    the entry, if present, and logs out its connection (4.3). *)
Definition Delete (t : string) (st : Store) : Store :=
  match entries st !! t with
  | None => st
  | Some e =>
      {| entries := delete t (entries st); drawn := drawn st;
         closed := {[connection e]} ∪ closed st |}
  end.

Definition idle (P : Params) (now : Z) (e : Entry) : bool :=
  idleTimeout P <? now - lastActive e.

(** Modelled from the spec: the reaper is not among the sources.  One scan
    (4.4): every entry idle for longer than the timeout is logged out and
    removed. *)
Definition Reap (P : Params) (now : Z) (st : Store) : Store :=
  let evicted := filter (λ kv, idle P now kv.2 = true) (entries st) in
  {| entries := filter (λ kv, idle P now kv.2 = false) (entries st);
     drawn := drawn st;
     closed := list_to_set (connection <$> (map_to_list evicted).*2) ∪ closed st |}.

(** The calls a history of the store is made of, each at its time. *)
Inductive op : Type :=
| OpPut (c : Conn) (u p : string)
| OpGet (t : string)
| OpDelete (t : string)
| OpReap.

(** One call, on the store and the list of tokens [Put] has issued. *)
Definition step (P : Params) (acc : Store * list string) (o : Z * op)
  : Store * list string :=
  let '(st, issued) := acc in
  let '(now, o) := o in
  match o with
  | OpPut c u p =>
      match Put P now c u p st with
      | (Ok t, st') => (st', t :: issued)
      | (Err _, st') => (st', issued)
      end
  | OpGet t => (snd (Get P now t st), issued)
  | OpDelete t => (Delete t st, issued)
  | OpReap => (Reap P now st, issued)
  end.

(** The store and the issued tokens after a history, from a new store. *)
Definition run (P : Params) (h : list (Z * op)) : Store * list string :=
  fold_left (step P) h (NewConnPool, []).

(** Every token of the store is among the issued ones. *)
Definition tracked (acc : Store * list string) : Prop :=
  ∀ t, is_Some (entries (fst acc) !! t) → t ∈ snd acc.

End SessionStore.

(** The collaborators of the handlers when the pool is the session store, at
    the time [now] of the request. *)
Definition store_env (P : SessionStore.Params) (now : Z)
    (dial : Server SessionStore.Store -> result Conn)
    (login : Conn -> string -> string -> option error)
    (logout : Conn -> option error) : Env SessionStore.Store :=
  {| Put := SessionStore.Put P now;
     Get := SessionStore.Get P now;
     connectIMAP := dial;
     Login := login;
     Logout := logout |}.

(** ** A concrete URL parser *)

(** [net/url]'s [Parse] on raw URLs of the shape [scheme://host/path],
    without user information, query or fragment and without validation of
    the host: enough to run the configuration on concrete URLs. *)
Module url.

Definition is_alpha (c : Ascii.ascii) : bool :=
  let n := Ascii.nat_of_ascii c in
  ((97 <=? n) && (n <=? 122) || (65 <=? n) && (n <=? 90))%nat.

Definition is_scheme_extra (c : Ascii.ascii) : bool :=
  let n := Ascii.nat_of_ascii c in
  ((48 <=? n) && (n <=? 57) || (n =? 43) || (n =? 45) || (n =? 46))%nat.

Definition to_lower (c : Ascii.ascii) : Ascii.ascii :=
  let n := Ascii.nat_of_ascii c in
  if ((65 <=? n) && (n <=? 90))%nat then Ascii.ascii_of_nat (n + 32) else c.

Fixpoint lower (s : string) : string :=
  match s with
  | EmptyString => EmptyString
  | String c s' => String (to_lower c) (lower s')
  end.

(** [getScheme]: the scheme and what follows its colon; no scheme when the
    text does not start as one; an error when it starts with a colon. *)
Fixpoint getScheme (first : bool) (rawURL : string)
  : result (option (string * string)) :=
  let continue c rest :=
    match getScheme false rest with
    | Ok (Some (scheme, path)) => Ok (Some (String c scheme, path))
    | r => r
    end in
  match rawURL with
  | EmptyString => Ok None
  | String c rest =>
      if is_alpha c then continue c rest
      else if is_scheme_extra c then
        if first then Ok None else continue c rest
      else if Ascii.eqb c ":"%char then
        if first then Err (ErrorString "missing protocol scheme")
        else Ok (Some (EmptyString, rest))
      else Ok None
  end.

Fixpoint until_slash (s : string) : string :=
  match s with
  | EmptyString => EmptyString
  | String c s' => if Ascii.eqb c "/"%char then EmptyString else String c (until_slash s')
  end.

(** The authority of [//host/path]. *)
Definition authority (rest : string) : string :=
  match rest with
  | String "/" (String "/" r) => until_slash r
  | _ => EmptyString
  end.

Definition Parse (rawURL : string) : result URL :=
  match getScheme true rawURL with
  | Err err => Err (Errorf ("parse " ++ rawURL ++ ": ") err)
  | Ok None => Ok {| Scheme := ""; Host := authority rawURL |}
  | Ok (Some (scheme, rest)) =>
      Ok {| Scheme := lower scheme; Host := authority rest |}
  end.

End url.

(** ** Transport modes *)

(** The three transport modes of a server URL and the flags that stand for
    them in the configuration, as (tls, insecure). *)
Inductive Mode : Type := Plaintext | TLS | TLSInsecure.

Definition mode_flags (m : Mode) : bool * bool :=
  match m with
  | Plaintext => (false, false)
  | TLS => (true, false)
  | TLSInsecure => (false, true)
  end.

(** The mode a scheme stands for, given the names of the three schemes. *)
Definition scheme_mode (plain tls insecure scheme : string) : option Mode :=
  if String.eqb scheme plain then Some Plaintext
  else if String.eqb scheme tls then Some TLS
  else if String.eqb scheme insecure then Some TLSInsecure
  else None.

Definition imap_mode : string -> option Mode :=
  scheme_mode "imap" "imaps" "imap+insecure".
Definition smtp_mode : string -> option Mode :=
  scheme_mode "smtp" "smtps" "smtp+insecure".

(** ** A concrete deployment *)

(** A store, an IMAP server and a few requests to run the handlers on. *)
Module Demo.

Definition params : SessionStore.Params :=
  {| SessionStore.NewToken := fun k => "tok-" ++ pretty k;
     SessionStore.attempts := 8%nat;
     SessionStore.keepAlive := 60;
     SessionStore.idleTimeout := 1800;
     SessionStore.probe := fun _ => true;
     SessionStore.reauth := fun _ _ => None |}.

(** The IMAP server accepts the password "secret" only. *)
Definition login (c : Conn) (user pass : string) : option error :=
  if String.eqb pass "secret" then None
  else Some (ErrorString "Invalid credentials").

Definition dial (s : Server SessionStore.Store) : result Conn := Ok 7%nat.

(** The environment at time [now], with the answer [bye] of the IMAP server
    to a logout. *)
Definition env (now : Z) (bye : option error) : Env SessionStore.Store :=
  store_env params now dial login (fun _ => bye).

Definition srv : Server SessionStore.Store :=
  set_imap_pool (Some SessionStore.NewConnPool)
    (set_imap_tls true (set_imap_host "mail.example.org" zeroServer)).

Definition world0 : World SessionStore.Store :=
  {| pool := SessionStore.NewConnPool; trace := [] |}.

Definition login_request (user pass : string) : Request :=
  {| Path := "/login"; Method := "POST"; Cookies := [];
     Form := [("username", user); ("password", pass)] |}.

Definition login_context (user pass : string) : context SessionStore.Store :=
  {| request := login_request user pass; server := srv;
     session := None; conn := None |}.

Definition page_request (path tok : string) : Request :=
  {| Path := path; Method := "GET"; Cookies := [(cookieName, tok)];
     Form := [] |}.

(** The store after alice has logged in at time 1000. *)
Definition logged_in : SessionStore.Store :=
  snd (SessionStore.Put params 1000 7%nat "alice" "secret"
         SessionStore.NewConnPool).

Definition world1 : World SessionStore.Store :=
  {| pool := logged_in; trace := [] |}.

End Demo.

(** ** The template functions *)

(** The flag constants and the address of go-imap that the templates use. *)
Module imap.

Definition SeenFlag : string := "\Seen".
Definition AnsweredFlag : string := "\Answered".
Definition FlaggedFlag : string := "\Flagged".
Definition DeletedFlag : string := "\Deleted".
Definition DraftFlag : string := "\Draft".

Record Address : Type := {
  PersonalName : string;
  AtDomainList : string;
  MailboxName : string;
  HostName : string
}.

(** [addr.Address()] *)
Definition Address_ (addr : Address) : string :=
  MailboxName addr ++ "@" ++ HostName addr.

End imap.

(** [strings.Join] *)
Fixpoint Join (elems : list string) (sep : string) : string :=
  match elems with
  | [] => ""
  | [x] => x
  | x :: rest => x ++ sep ++ Join rest sep
  end.

(** The entries of [templateFuncs]. *)
Module templateFuncs.

(** ["formataddrlist"]: the loop that fills [l]; an address is a pointer,
    and reading through a nil one panics ([None]). *)
Fixpoint format_each (addrs : list (option imap.Address))
  : option (list string) :=
  match addrs with
  | [] => Some []
  | None :: _ => None
  | Some addr :: rest =>
      match format_each rest with
      | Some l =>
          Some ((imap.PersonalName addr ++ " <" ++ imap.Address_ addr ++ ">")
                :: l)
      | None => None
      end
  end.

Definition formataddrlist (addrs : list (option imap.Address))
  : option string :=
  match format_each addrs with
  | Some l => Some (Join l ", ")
  | None => None
  end.

(** ["formatflag"] *)
Definition formatflag (flag : string) : string :=
  if String.eqb flag imap.SeenFlag then "Seen"
  else if String.eqb flag imap.AnsweredFlag then "Answered"
  else if String.eqb flag imap.FlaggedFlag then "Starred"
  else if String.eqb flag imap.DraftFlag then "Draft"
  else flag.

(** ["ismutableflag"] *)
Definition ismutableflag (flag : string) : bool :=
  if String.eqb flag imap.AnsweredFlag
     || String.eqb flag imap.DeletedFlag
     || String.eqb flag imap.DraftFlag
  then false
  else true.

End templateFuncs.

(** ** The page handlers *)

Module httpmore.
Definition StatusBadRequest : Z := 400.
Definition StatusForbidden : Z := 403.
Definition MethodPost : string := "POST".
End httpmore.

(** An [*smtp.Client]: the identity of one SMTP connection. *)
Definition SmtpConn : Type := nat.

(** [type OutgoingMessage struct], as the compose handler fills it. *)
Record OutgoingMessage : Type := {
  from : string;
  to : list string;
  subject : string;
  text : string
}.

(** What [handleGetPart] reads of the message part that was fetched: the
    media type of its Content-Type header or the error of parsing it, the
    disposition and the filename parameter of its Content-Disposition
    header (both empty when the header is absent or malformed), and the
    content of its body or the error of reading it. *)
Record Part : Type := {
  part_ContentType : result string;
  part_Disposition : string;
  part_Filename : string;
  part_Body : result string
}.

(** The path parameters and the query parameters of the matched route:
    [ctx.Param] and [ctx.QueryParam]. *)
Record Route : Type := {
  PathParams : list (string * string);
  QueryParams : list (string * string)
}.

Definition Param (rt : Route) (name : string) : string :=
  match assoc name (PathParams rt) with
  | Some v => v
  | None => ""
  end.

Definition QueryParam (rt : Route) (name : string) : string :=
  match assoc name (QueryParams rt) with
  | Some v => v
  | None => ""
  end.

(** One call of a page handler into a collaborator: a call of the response
    writer or the logger as before, or a call to the SMTP client, to the
    message store or to the response's header. *)
Inductive PageEvent : Type :=
| Echo (ev : Event)
| EvConnectSMTP
| EvAuth (c : SmtpConn) (identity user pass : string)
| EvSendMessage (c : SmtpConn) (msg : OutgoingMessage)
| EvQuit (c : SmtpConn)
| EvClose (c : SmtpConn)
| EvGetMessagePart (c : option Conn) (mbox : string) (uid : N)
    (partPath : list Z)
| EvSetHeader (key value : string)
| EvStream (code : Z) (contentType : string) (body : result string)
| EvRenderMessage (code : Z) (name : string) (mailbox : string) (msg : nat)
    (body partPath : string).

(** The collaborators of the compose and message handlers: the server's
    SMTP dial, the SMTP client's commands, [sendMessage], the two parsers of
    route parameters, [getMessagePart] with the message and part it returns,
    the mailbox selected on an IMAP connection, and [mime.FormatMediaType]
    on a parameter list. *)
Record PageEnv (ConnPool : Type) : Type := {
  connectSMTP : Server ConnPool -> result SmtpConn;
  Auth : SmtpConn -> string -> string -> string -> option error;
  sendMessage : SmtpConn -> OutgoingMessage -> option error;
  Quit : SmtpConn -> option error;
  parseUid : string -> result N;
  parsePartPath : string -> result (list Z);
  getMessagePart : option Conn -> string -> N -> list Z -> result (nat * Part);
  Mailbox : Conn -> string;
  FormatMediaType : string -> list (string * string) -> string
}.
Arguments connectSMTP {ConnPool} _.
Arguments Auth {ConnPool} _.
Arguments sendMessage {ConnPool} _.
Arguments Quit {ConnPool} _.
Arguments parseUid {ConnPool} _.
Arguments parsePartPath {ConnPool} _.
Arguments getMessagePart {ConnPool} _.
Arguments Mailbox {ConnPool} _.
Arguments FormatMediaType {ConnPool} _.

(** A page handler makes calls, oldest first, and then returns a value or
    panics ([None]).  These handlers do not touch the pool. *)
Definition Page (A : Type) : Type := list PageEvent * option A.

Definition page_ret {A : Type} (a : A) : Page A := ([], Some a).

Definition page_panic {A : Type} : Page A := ([], None).

Definition page_bind {A B : Type} (m : Page A) (k : A -> Page B) : Page B :=
  match m with
  | (evs, Some a) => let '(evs', r) := k a in ((evs ++ evs')%list, r)
  | (evs, None) => (evs, None)
  end.

(** One call, with the value it returns. *)
Definition call {A : Type} (ev : PageEvent) (a : A) : Page A := ([ev], Some a).

(** [defer]: the calls [d] are made when [m] returns and when it panics. *)
Definition defer {A : Type} (d : list PageEvent) (m : Page A) : Page A :=
  let '(evs, r) := m in ((evs ++ d)%list, r).

Declare Scope page_scope.
Delimit Scope page_scope with page.
Notation "'let*' x := c 'in' k" := (page_bind c (fun x => k))
  (at level 10, x name, c at level 100, k at level 200) : page_scope.

(** [strings.EqualFold(s, t)] for a [t] of ASCII characters other than the
    letters k and s, the only ASCII letters that Unicode folds together with
    characters outside ASCII: [s] and [t] are then equal under folding
    exactly when they are equal once their ASCII capitals are lowered. *)
Definition EqualFold (s t : string) : bool :=
  String.eqb (url.lower s) (url.lower t).

(** [strings.HasPrefix(strings.ToLower(s), p)] for a [p] of ASCII
    characters other than the letters i and k, the only ASCII letters that
    are the lower case of characters outside ASCII. *)
Definition lower_HasPrefix (s p : string) : bool :=
  String.prefix p (url.lower s).

Section PageHandlers.
Context {ConnPool : Type}.
Variable PE : PageEnv ConnPool.

Open Scope page_scope.

(** echo's [c.Render] and [c.Redirect] for a page handler. *)
Definition page_Render (code : Z) (name : string) : Page (option error) :=
  call (Echo (EvRender code name)) None.

Definition page_Redirect (code : Z) (url : string) : Page (option error) :=
  if (code <? 300) || (308 <? code)
  then page_ret (Some (ErrorString "invalid redirect status code"))
  else call (Echo (EvRedirect code url)) None.

(** [func handleCompose(ectx echo.Context) error] *)
Definition handleCompose (ctx : context ConnPool) : Page (option error) :=
  if String.eqb (Method (request ctx)) httpmore.MethodPost then
    let from := FormValue (request ctx) "from" in
    let to := FormValue (request ctx) "to" in
    let subject := FormValue (request ctx) "subject" in
    let text := FormValue (request ctx) "text" in
    let* r := call EvConnectSMTP (connectSMTP PE (server ctx)) in
    match r with
    | Err err => page_ret (Some err)
    | Ok c =>
        defer [EvClose c]
          match session ctx with
          | None => page_panic
          | Some sess =>
              let* a := call (EvAuth c "" (username sess) (password sess))
                          (Auth PE c "" (username sess) (password sess)) in
              match a with
              | Some err =>
                  page_ret (Some (HTTPError httpmore.StatusForbidden (Error_ err)))
              | None =>
                  let msg := {| from := from; to := [to]; subject := subject;
                                text := text |} in
                  let* sent := call (EvSendMessage c msg)
                                 (sendMessage PE c msg) in
                  match sent with
                  | Some err => page_ret (Some err)
                  | None =>
                      let* q := call (EvQuit c) (Quit PE c) in
                      match q with
                      | Some err => page_ret (Some (Errorf "QUIT failed: " err))
                      | None => page_Redirect http.StatusFound "/mailbox/INBOX"
                      end
                  end
              end
          end
    end
  else page_Render http.StatusOK "compose.html".

(** [func handleGetPart(ctx *context, raw bool) error] *)
Definition handleGetPart (ctx : context ConnPool) (rt : Route) (raw : bool)
  : Page (option error) :=
  let mboxName := Param rt "mbox" in
  match parseUid PE (Param rt "uid") with
  | Err err =>
      page_ret (Some (HTTPError httpmore.StatusBadRequest (Error_ err)))
  | Ok uid =>
      let partPathString := QueryParam rt "part" in
      match parsePartPath PE partPathString with
      | Err err =>
          page_ret (Some (HTTPError httpmore.StatusBadRequest (Error_ err)))
      | Ok partPath =>
          let* fetched :=
            call (EvGetMessagePart (conn ctx) mboxName uid partPath)
              (getMessagePart PE (conn ctx) mboxName uid partPath) in
          match fetched with
          | Err err => page_ret (Some err)
          | Ok (msg, part) =>
              match part_ContentType part with
              | Err err =>
                  page_ret
                    (Some (Errorf "failed to parse part Content-Type: " err))
              | Ok mimeType =>
                  let mimeType :=
                    if (length partPath =? 0)%nat then "message/rfc822"
                    else mimeType in
                  if raw then
                    let disp := part_Disposition part in
                    let filename := part_Filename part in
                    let* _ :=
                      if negb (EqualFold mimeType "text/plain")
                         || EqualFold disp "attachment"
                      then
                        let dispParams :=
                          if negb (String.eqb filename "")
                          then [("filename", filename)] else [] in
                        let disp :=
                          FormatMediaType PE "attachment" dispParams in
                        call (EvSetHeader "Content-Disposition" disp) tt
                      else page_ret tt in
                    call (EvStream http.StatusOK mimeType (part_Body part))
                      match part_Body part with
                      | Ok _ => None
                      | Err err => Some err
                      end
                  else
                    let* body :=
                      if lower_HasPrefix mimeType "text/" then
                        match part_Body part with
                        | Err err => page_ret (Err err)
                        | Ok b => page_ret (Ok b)
                        end
                      else page_ret (Ok "") in
                    match body with
                    | Err err =>
                        page_ret
                          (Some (Errorf "failed to read part body: " err))
                    | Ok body =>
                        match conn ctx with
                        | None => page_panic
                        | Some c =>
                            call (EvRenderMessage http.StatusOK "message.html"
                                    (Mailbox PE c) msg body partPathString)
                              None
                        end
                    end
              end
          end
      end
  end.

End PageHandlers.

(** ** Histories of the session store *)

Module StoreHistory.

(** The store and the tokens issued by the calls of [h], made on the store
    [st]. *)
Definition run_from (P : SessionStore.Params) (st : SessionStore.Store)
    (h : list (Z * SessionStore.op)) : SessionStore.Store * list string :=
  fold_left (SessionStore.step P) h (st, []).

(** Modelled from the spec: the token generator is not among the sources.
    Its values are unguessable and collide with negligible probability
    (4.1), tokens are never reused (3): the generator never produces the
    same token twice. *)
Definition never_repeats (P : SessionStore.Params) : Prop :=
  ∀ i j : nat, SessionStore.NewToken P i = SessionStore.NewToken P j → i = j.

End StoreHistory.

(** ** A concrete deployment for the page handlers *)

Module DemoPages.

(** A store whose connections have died and cannot be re-authenticated. *)
Definition dead_params : SessionStore.Params :=
  {| SessionStore.NewToken := fun k => "tok-" ++ pretty k;
     SessionStore.attempts := 8%nat;
     SessionStore.keepAlive := 60;
     SessionStore.idleTimeout := 1800;
     SessionStore.probe := fun _ => false;
     SessionStore.reauth := fun _ _ => None |}.

Definition dead_env (now : Z) : Env SessionStore.Store :=
  store_env dead_params now Demo.dial Demo.login (fun _ => None).

(** A message whose part 1 is an HTML text and whose part 2 is a plain
    text. *)
Definition html_part : Part :=
  {| part_ContentType := Ok "text/html"; part_Disposition := "inline";
     part_Filename := ""; part_Body := Ok "<p>hello</p>" |}.

Definition plain_part : Part :=
  {| part_ContentType := Ok "text/plain"; part_Disposition := "";
     part_Filename := ""; part_Body := Ok "hello" |}.

Definition env : PageEnv SessionStore.Store :=
  {| connectSMTP := fun _ => Ok 3%nat;
     Auth := fun _ _ _ pass =>
       if String.eqb pass "secret" then None
       else Some (ErrorString "535 authentication failed");
     sendMessage := fun _ _ => None;
     Quit := fun _ => None;
     parseUid := fun s =>
       if String.eqb s "42" then Ok 42%N
       else Err (ErrorString "failed to parse UID");
     parsePartPath := fun s =>
       if String.eqb s "" then Ok []
       else if String.eqb s "1" then Ok [1]
       else if String.eqb s "2" then Ok [2]
       else Err (ErrorString "failed to parse part path");
     getMessagePart := fun _ _ _ path =>
       match path with
       | [2] => Ok (1%nat, plain_part)
       | _ => Ok (1%nat, html_part)
       end;
     Mailbox := fun _ => "INBOX";
     FormatMediaType := fun t params =>
       t ++ String.concat ""
              (map (fun kv => "; " ++ fst kv ++ "=" ++ snd kv) params) |}.

Definition alice : Session :=
  {| imapConn := 7%nat; username := "alice"; password := "secret" |}.

Definition compose_context (method : string) (sess : Session)
  : context SessionStore.Store :=
  {| request := {| Path := "/compose"; Method := method;
                   Cookies := [(cookieName, "tok-0")];
                   Form := [("from", "alice@example.org");
                            ("to", "bob@example.org");
                            ("subject", "hi"); ("text", "hello") ] |};
     server := Demo.srv; session := Some sess;
     conn := Some (imapConn sess) |}.

Definition message_context : context SessionStore.Store :=
  {| request := Demo.page_request "/message/:mbox/:uid" "tok-0";
     server := Demo.srv; session := Some alice; conn := Some 7%nat |}.

Definition message_route (uid part : string) : Route :=
  {| PathParams := [("mbox", "INBOX"); ("uid", uid)];
     QueryParams := [("part", part)] |}.

End DemoPages.

(** * Properties *)

(** ** Server configuration *)

Example url_Parse_imaps :
  url.Parse "imaps://mail.example.org" =
  Ok {| Scheme := "imaps"; Host := "mail.example.org" |}.
Proof. reflexivity. Qed.

Example url_Parse_uppercase :
  url.Parse "SMTP+Insecure://relay:25/" =
  Ok {| Scheme := "smtp+insecure"; Host := "relay:25" |}.
Proof. reflexivity. Qed.

Example url_Parse_colon : exists e, url.Parse "://mail.example.org" = Err e.
Proof. eexists. reflexivity. Qed.

Lemma scheme_mode_cases (plain tls insecure scheme : string) :
  (scheme = plain ∧ scheme_mode plain tls insecure scheme = Some Plaintext)
  ∨ (scheme ≠ plain ∧ scheme = tls
     ∧ scheme_mode plain tls insecure scheme = Some TLS)
  ∨ (scheme ≠ plain ∧ scheme ≠ tls ∧ scheme = insecure
     ∧ scheme_mode plain tls insecure scheme = Some TLSInsecure)
  ∨ (scheme ≠ plain ∧ scheme ≠ tls ∧ scheme ≠ insecure
     ∧ scheme_mode plain tls insecure scheme = None).
Proof.
  unfold scheme_mode.
  destruct (String.eqb_spec scheme plain) as [-> | Hp]; [by left |].
  destruct (String.eqb_spec scheme tls) as [-> | Ht]; [by right; left |].
  destruct (String.eqb_spec scheme insecure) as [-> | Hi];
    [by right; right; left | by right; right; right].
Qed.

Lemma scheme_mode_None_elem (plain tls insecure scheme : string) :
  scheme_mode plain tls insecure scheme = None ↔
  scheme ∉ [plain; tls; insecure].
Proof.
  destruct (scheme_mode_cases plain tls insecure scheme)
    as [[-> E] | [(? & -> & E) | [(? & ? & -> & E) | (? & ? & ? & E)]]];
    rewrite E; split; try done; intros Hn.
  - exfalso. apply Hn. apply list_elem_of_here.
  - exfalso. apply Hn. apply list_elem_of_further, list_elem_of_here.
  - exfalso. apply Hn. do 2 apply list_elem_of_further. apply list_elem_of_here.
  - rewrite !elem_of_cons, elem_of_nil. tauto.
Qed.

Section ConfigurationFacts.
Context {ConnPool : Type}.
Variable url_Parse : string -> result URL.

Lemma parseIMAPURL_parsed (s : Server ConnPool) (raw : string) (u : URL) :
  url_Parse raw = Ok u →
  parseIMAPURL url_Parse s raw =
  match imap_mode (Scheme u) with
  | Some Plaintext => (set_imap_host (Host u) s, None)
  | Some TLS => (set_imap_tls true (set_imap_host (Host u) s), None)
  | Some TLSInsecure => (set_imap_insecure true (set_imap_host (Host u) s), None)
  | None => (set_imap_host (Host u) s,
             Some (ErrorString ("unrecognized IMAP URL scheme: " ++ Scheme u)))
  end.
Proof.
  intros Hu. unfold parseIMAPURL, imap_mode, scheme_mode. rewrite Hu.
  destruct (String.eqb (Scheme u) "imap"); [done |].
  destruct (String.eqb (Scheme u) "imaps"); [done |].
  by destruct (String.eqb (Scheme u) "imap+insecure").
Qed.

Lemma parseSMTPURL_parsed (s : Server ConnPool) (raw : string) (u : URL) :
  url_Parse raw = Ok u →
  parseSMTPURL url_Parse s raw =
  match smtp_mode (Scheme u) with
  | Some Plaintext => (set_smtp_host (Host u) s, None)
  | Some TLS => (set_smtp_tls true (set_smtp_host (Host u) s), None)
  | Some TLSInsecure => (set_smtp_insecure true (set_smtp_host (Host u) s), None)
  | None => (set_smtp_host (Host u) s,
             Some (ErrorString ("unrecognized SMTP URL scheme: " ++ Scheme u)))
  end.
Proof.
  intros Hu. unfold parseSMTPURL, smtp_mode, scheme_mode. rewrite Hu.
  destruct (String.eqb (Scheme u) "smtp"); [done |].
  destruct (String.eqb (Scheme u) "smtps"); [done |].
  by destruct (String.eqb (Scheme u) "smtp+insecure").
Qed.

Lemma parseIMAPURL_rejected (s : Server ConnPool) (raw : string) :
  url_accepted url_Parse imap_schemes raw = false →
  is_Some (snd (parseIMAPURL url_Parse s raw)).
Proof.
  unfold url_accepted. intros Hacc.
  destruct (url_Parse raw) as [u | e] eqn:Hu.
  - rewrite (parseIMAPURL_parsed s raw u Hu).
    apply bool_decide_eq_false in Hacc.
    apply scheme_mode_None_elem in Hacc.
    unfold imap_mode. by rewrite Hacc.
  - unfold parseIMAPURL. by rewrite Hu.
Qed.

Lemma parseSMTPURL_rejected (s : Server ConnPool) (raw : string) :
  url_accepted url_Parse smtp_schemes raw = false →
  is_Some (snd (parseSMTPURL url_Parse s raw)).
Proof.
  unfold url_accepted. intros Hacc.
  destruct (url_Parse raw) as [u | e] eqn:Hu.
  - rewrite (parseSMTPURL_parsed s raw u Hu).
    apply bool_decide_eq_false in Hacc.
    apply scheme_mode_None_elem in Hacc.
    unfold smtp_mode. by rewrite Hacc.
  - unfold parseSMTPURL. by rewrite Hu.
Qed.

Lemma parseIMAPURL_accepted (s : Server ConnPool) (raw : string) :
  url_accepted url_Parse imap_schemes raw = true →
  snd (parseIMAPURL url_Parse s raw) = None
  ∧ smtp (fst (parseIMAPURL url_Parse s raw)) = smtp s.
Proof.
  unfold url_accepted. intros Hacc.
  destruct (url_Parse raw) as [u | e] eqn:Hu; [| done].
  rewrite (parseIMAPURL_parsed s raw u Hu).
  apply bool_decide_eq_true in Hacc.
  destruct (imap_mode (Scheme u)) as [[| |] |] eqn:Hm; try done.
  apply scheme_mode_None_elem in Hm. done.
Qed.

End ConfigurationFacts.

Section TransportModes.
Context {ConnPool : Type}.
Variable NewConnPool : ConnPool.
Variable url_Parse : string -> result URL.

(** C6.  Each parser accepts exactly three schemes.  On a server whose
    IMAP flags are unset, [parseIMAPURL] of a URL that parses with scheme
    imap returns no error and leaves both flags unset, with imaps it sets
    tls only, with imap+insecure it sets insecure only, each time storing
    the host and leaving the SMTP settings and the pool alone; with any
    other scheme, or when [url.Parse] fails, it returns an error and sets
    no flag.  The same holds for [parseSMTPURL] with smtp, smtps and
    smtp+insecure on a server whose SMTP flags are unset, whatever its IMAP
    flags are.  After such an error no server is configured: [NewServer]
    returns nil and the error, for a rejected IMAP URL whatever the SMTP
    URL is, and for a rejected non-empty SMTP URL whatever the IMAP URL
    is. *)
Theorem parse_URL_modes (s : Server ConnPool) (raw : string) :
  (imap_flags s = (false, false) →
   let s' := fst (parseIMAPURL url_Parse s raw) in
   let err := snd (parseIMAPURL url_Parse s raw) in
   match url_Parse raw with
   | Err _ => is_Some err ∧ s' = s
   | Ok u =>
       match imap_mode (Scheme u) with
       | Some m =>
           err = None
           ∧ imap_flags s' = mode_flags m
           ∧ imap_host (imap s') = Host u
           ∧ imap_pool (imap s') = imap_pool (imap s)
           ∧ smtp s' = smtp s
       | None =>
           is_Some err ∧ imap_flags s' = (false, false) ∧ smtp s' = smtp s
       end
   end)
  ∧ (smtp_flags s = (false, false) →
     let s' := fst (parseSMTPURL url_Parse s raw) in
     let err := snd (parseSMTPURL url_Parse s raw) in
     match url_Parse raw with
     | Err _ => is_Some err ∧ s' = s
     | Ok u =>
         match smtp_mode (Scheme u) with
         | Some m =>
             err = None
             ∧ smtp_flags s' = mode_flags m
             ∧ smtp_host (smtp s') = Host u
             ∧ imap s' = imap s
         | None =>
             is_Some err ∧ smtp_flags s' = (false, false) ∧ imap s' = imap s
         end
     end)
  ∧ (is_Some (snd (parseIMAPURL url_Parse (@zeroServer ConnPool) raw)) →
     ∀ smtpURL,
       NewServer NewConnPool url_Parse raw smtpURL =
       (None, snd (parseIMAPURL url_Parse (@zeroServer ConnPool) raw)))
  ∧ (raw ≠ "" →
     ∀ imapURL srv,
       parseIMAPURL url_Parse (@zeroServer ConnPool) imapURL = (srv, None) →
       is_Some (snd (parseSMTPURL url_Parse
                       (set_imap_pool (Some NewConnPool) srv) raw)) →
       NewServer NewConnPool url_Parse imapURL raw =
       (None, snd (parseSMTPURL url_Parse
                     (set_imap_pool (Some NewConnPool) srv) raw))).
Proof.
  split; [| split; [| split]].
  - intros Hi. unfold imap_flags in Hi. injection Hi as Hi1 Hi2. cbn zeta.
    destruct (url_Parse raw) as [u | e] eqn:Hu.
    + rewrite (parseIMAPURL_parsed url_Parse s raw u Hu).
      unfold imap_flags.
      destruct (imap_mode (Scheme u)) as [[| |] |]; cbn;
        rewrite ?Hi1, ?Hi2; by repeat split.
    + unfold parseIMAPURL. rewrite Hu. cbn. by split.
  - intros Hs. unfold smtp_flags in Hs. injection Hs as Hs1 Hs2. cbn zeta.
    destruct (url_Parse raw) as [u | e] eqn:Hu.
    + rewrite (parseSMTPURL_parsed url_Parse s raw u Hu).
      unfold smtp_flags.
      destruct (smtp_mode (Scheme u)) as [[| |] |]; cbn;
        rewrite ?Hs1, ?Hs2; by repeat split.
    + unfold parseSMTPURL. rewrite Hu. cbn. by split.
  - intros [e He] smtpURL. unfold NewServer.
    destruct (parseIMAPURL url_Parse zeroServer raw) as [s0 err].
    cbn in He. by subst err.
  - intros Hne imapURL srv Himap [e He]. unfold NewServer. rewrite Himap.
    apply String.eqb_neq in Hne. rewrite Hne. cbn.
    destruct (parseSMTPURL url_Parse _ raw) as [s0 err].
    cbn in He. by subst err.
Qed.

End TransportModes.

(** The theorem at work: three accepted URLs, the SMTP parser on the server
    that the IMAP parser has set to TLS, and a scheme that no parser knows. *)
Lemma parse_URL_modes_witness :
  imap_flags (fst (parseIMAPURL url.Parse (@zeroServer unit)
                     "imaps://mail.example.org")) = (true, false)
  ∧ imap_flags (fst (parseIMAPURL url.Parse (@zeroServer unit)
                       "imap+insecure://mail.example.org")) = (false, true)
  ∧ smtp_flags (fst (parseSMTPURL url.Parse
                       (set_imap_tls true (@zeroServer unit))
                       "smtp://relay.example.org:25")) = (false, false)
  ∧ is_Some (snd (parseIMAPURL url.Parse (@zeroServer unit)
                    "pop3://mail.example.org"))
  ∧ imap_flags (fst (parseIMAPURL url.Parse (@zeroServer unit)
                       "pop3://mail.example.org")) = (false, false)
  ∧ fst (NewServer tt url.Parse "pop3://mail.example.org" "") = None.
Proof.
  pose proof (proj1 (parse_URL_modes tt url.Parse (@zeroServer unit)
                       "imaps://mail.example.org") eq_refl) as H1.
  pose proof (proj1 (parse_URL_modes tt url.Parse (@zeroServer unit)
                       "imap+insecure://mail.example.org") eq_refl) as H2.
  pose proof (proj1 (proj2 (parse_URL_modes tt url.Parse
                              (set_imap_tls true (@zeroServer unit))
                              "smtp://relay.example.org:25")) eq_refl) as H3.
  pose proof (proj1 (parse_URL_modes tt url.Parse (@zeroServer unit)
                       "pop3://mail.example.org") eq_refl) as H4.
  pose proof (proj1 (proj2 (proj2 (parse_URL_modes tt url.Parse
                                     (@zeroServer unit)
                                     "pop3://mail.example.org")))
                (mk_is_Some _ _ eq_refl) "") as H5.
  cbn in H1, H2, H3, H4.
  destruct H1 as (_ & H1 & _). destruct H2 as (_ & H2 & _).
  destruct H3 as (_ & H3 & _). destruct H4 as (H4 & H4' & _).
  rewrite H5.
  exact (conj H1 (conj H2 (conj H3 (conj H4 (conj H4' eq_refl))))).
Defined.

Section NewServerFacts.
Context {ConnPool : Type}.
Variable NewConnPool : ConnPool.
Variable url_Parse : string -> result URL.

(** C10.  With an imapURL that parses to one of the three IMAP schemes, and
    an empty smtpURL, [NewServer] returns a server and no error, and the
    server's SMTP settings are the zero ones.  With an imapURL that fails to
    parse or has another scheme it returns no server and an error, whatever
    the smtpURL; so it does with a non-empty smtpURL that fails to parse or
    has a scheme outside the three SMTP ones, whatever the imapURL. *)
Theorem NewServer_optional_smtp (imapURL smtpURL : string) :
  (url_accepted url_Parse imap_schemes imapURL = true →
   ∃ s, NewServer NewConnPool url_Parse imapURL "" = (Some s, None)
        ∧ smtp s = smtp (@zeroServer ConnPool)
        ∧ imap_pool (imap s) = Some NewConnPool)
  ∧ (url_accepted url_Parse imap_schemes imapURL = false →
     ∃ e, NewServer NewConnPool url_Parse imapURL smtpURL = (None, Some e))
  ∧ (smtpURL ≠ "" →
     url_accepted url_Parse smtp_schemes smtpURL = false →
     ∃ e, NewServer NewConnPool url_Parse imapURL smtpURL = (None, Some e)).
Proof.
  split; [| split].
  - intros Hacc. unfold NewServer.
    destruct (parseIMAPURL_accepted url_Parse (@zeroServer ConnPool) imapURL Hacc)
      as [Herr Hsmtp].
    destruct (parseIMAPURL url_Parse (@zeroServer ConnPool) imapURL) as [s err].
    cbn in Herr, Hsmtp. subst err. cbn.
    eexists. split; [reflexivity |]. by split.
  - intros Hrej. unfold NewServer.
    destruct (parseIMAPURL_rejected url_Parse (@zeroServer ConnPool) imapURL Hrej)
      as [e He].
    destruct (parseIMAPURL url_Parse (@zeroServer ConnPool) imapURL) as [s err].
    cbn in He. subst err. by exists e.
  - intros Hne Hrej. unfold NewServer.
    destruct (parseIMAPURL url_Parse (@zeroServer ConnPool) imapURL) as [s [e |]];
      [by exists e |].
    apply String.eqb_neq in Hne. rewrite Hne. cbn.
    destruct (parseSMTPURL_rejected url_Parse
                (set_imap_pool (Some NewConnPool) s) smtpURL Hrej) as [e He].
    destruct (parseSMTPURL url_Parse _ smtpURL) as [s' err].
    cbn in He. subst err. by exists e.
Qed.

End NewServerFacts.

(** The theorem at work: an IMAP-only server, a bad IMAP scheme and a bad
    SMTP scheme. *)
Lemma NewServer_optional_smtp_witness :
  (∃ s, NewServer tt url.Parse "imaps://mail.example.org" "" = (Some s, None)
        ∧ smtp s = smtp (@zeroServer unit)
        ∧ imap_pool (imap s) = Some tt)
  ∧ (∃ e, NewServer tt url.Parse "http://mail.example.org"
            "smtps://relay.example.org" = (None, Some e))
  ∧ (∃ e, NewServer tt url.Parse "imaps://mail.example.org"
            "http://relay.example.org" = (None, Some e)).
Proof.
  split; [| split].
  - apply (proj1 (NewServer_optional_smtp tt url.Parse
                    "imaps://mail.example.org" "")).
    reflexivity.
  - apply (proj1 (proj2 (NewServer_optional_smtp tt url.Parse
                           "http://mail.example.org"
                           "smtps://relay.example.org"))).
    reflexivity.
  - apply (proj2 (proj2 (NewServer_optional_smtp tt url.Parse
                           "imaps://mail.example.org"
                           "http://relay.example.org"))).
    + discriminate.
    + reflexivity.
Defined.

(** ** The login handler *)

(** Unfold a handler down to the calls it makes. *)
Ltac run_handler :=
  unfold handleLogin, handleLogout, middleware, HTTPErrorHandler, serve,
    returning, server_connectIMAP, conn_Login, conn_Logout, pool_Put,
    pool_Get, setToken, Render, Redirect, String_, Logger_Error,
    bind, ret, emit, panic;
  cbn.

Ltac flatten_trace := cbn; rewrite <- ?app_assoc; cbn.

Lemma eqb_empty_false (s : string) : s ≠ "" → String.eqb s "" = false.
Proof. apply String.eqb_neq. Qed.

Section LoginFacts.
Context {ConnPool : Type}.
Variable E : Env ConnPool.

(** C9.  When the username or the password of the form is empty,
    [handleLogin] returns nil after one call only, the rendering of
    login.html with status 200: the server is not dialled, no IMAP login is
    attempted, the pool is neither called nor changed and no cookie is set. *)
Theorem handleLogin_empty_form (ctx : context ConnPool) (w : World ConnPool) :
  FormValue (request ctx) "username" = ""
  ∨ FormValue (request ctx) "password" = "" →
  ∃ w', handleLogin E ctx w = Some (None, w')
        ∧ pool w' = pool w
        ∧ trace w' = (trace w ++ [EvRender 200 "login.html"])%list.
Proof.
  intros Hempty. unfold handleLogin.
  assert (negb (String.eqb (FormValue (request ctx) "username") "")
          && negb (String.eqb (FormValue (request ctx) "password") "") = false)
    as ->.
  { destruct Hempty as [-> | ->]; cbn; [done |]. apply andb_false_r. }
  run_handler. eexists. by repeat split.
Qed.

(** C3.  When the form is filled in, the dial succeeds and the IMAP server
    rejects the login, [handleLogin] logs the connection out and only then
    renders login.html with status 200; it returns nil, so the error handler
    is not involved, and the pool is neither called nor changed. *)
Theorem handleLogin_rejected (ctx : context ConnPool) (w : World ConnPool)
    (c : Conn) (err : error) :
  let user := FormValue (request ctx) "username" in
  let pass := FormValue (request ctx) "password" in
  user ≠ "" → pass ≠ "" →
  connectIMAP E (server ctx) = Ok c →
  Login E c user pass = Some err →
  ∃ w', handleLogin E ctx w = Some (None, w')
        ∧ pool w' = pool w
        ∧ trace w' = (trace w ++ [EvConnectIMAP; EvLogin c user pass;
                                  EvLogout c; EvRender 200 "login.html"])%list.
Proof.
  intros user pass Hu Hp Hdial Hlogin. subst user pass.
  unfold handleLogin.
  rewrite (eqb_empty_false _ Hu), (eqb_empty_false _ Hp).
  run_handler. rewrite Hdial. cbn. rewrite Hlogin. cbn.
  eexists. split; [reflexivity |]. split; [done |]. by flatten_trace.
Qed.


End LoginFacts.
(** The three login theorems at work on the concrete deployment. *)
Lemma handleLogin_empty_form_witness :
  ∃ w', handleLogin (Demo.env 1000 None) (Demo.login_context "alice" "")
          Demo.world0 = Some (None, w')
        ∧ pool w' = pool Demo.world0
        ∧ trace w' = (trace Demo.world0 ++ [EvRender 200 "login.html"])%list.
Proof.
  apply (handleLogin_empty_form (Demo.env 1000 None)
           (Demo.login_context "alice" "") Demo.world0).
  right. reflexivity.
Defined.

Lemma handleLogin_rejected_witness :
  ∃ w', handleLogin (Demo.env 1000 None) (Demo.login_context "alice" "guess")
          Demo.world0 = Some (None, w')
        ∧ pool w' = pool Demo.world0
        ∧ trace w' = [EvConnectIMAP; EvLogin 7%nat "alice" "guess";
                      EvLogout 7%nat; EvRender 200 "login.html"].
Proof.
  apply (handleLogin_rejected (Demo.env 1000 None)
           (Demo.login_context "alice" "guess") Demo.world0 7%nat
           (ErrorString "Invalid credentials")).
  - discriminate.
  - discriminate.
  - reflexivity.
  - reflexivity.
Defined.


(** ** The middleware *)

Section MiddlewareFacts.
Context {ConnPool : Type}.
Variable E : Env ConnPool.

Lemma middleware_with_cookie (s : Server ConnPool) (req : Request)
    (w : World ConnPool) (v : string) :
  ctx_Cookie req cookieName = Ok v →
  middleware E s req w =
  let w1 := {| pool := snd (Get E v (pool w));
               trace := trace w ++ [EvPoolGet v] |} in
  match fst (Get E v (pool w)) with
  | Err ErrSessionExpired =>
      (setToken "" >> returning (Redirect 302 "/login")) w1
  | Err err => Some (Return (Some err), w1)
  | Ok sess =>
      Some (Next {| request := req; server := s; session := Some sess;
                    conn := Some (imapConn sess) |}, w1)
  end.
Proof.
  intros Hv. unfold middleware. rewrite Hv.
  unfold pool_Get, bind at 1.
  destruct (Get E v (pool w)) as [[sess | err] p]; cbn; [done |].
  by destruct err.
Qed.

(** C1.  For a request that carries the session cookie, the first call of
    the middleware is the pool's [Get] with the cookie's value, and the pool
    continues as [Get] left it.  What follows is decided by what [Get]
    returned.  With a session, the middleware makes no further call and
    passes the request on to the page handler, with that session and its
    connection installed in the context.  With [ErrSessionExpired] it sets
    the cleared cookie, redirects to /login with status 302 and returns nil
    without passing on.  With any other error it returns that error without
    passing on and without a further call. *)
Theorem middleware_gets_session (s : Server ConnPool) (req : Request)
    (w : World ConnPool) (v : string) :
  ctx_Cookie req cookieName = Ok v →
  ∃ o w' evs,
    middleware E s req w = Some (o, w')
    ∧ pool w' = snd (Get E v (pool w))
    ∧ trace w' = (trace w ++ EvPoolGet v :: evs)%list
    ∧ match fst (Get E v (pool w)) with
      | Ok sess =>
          o = Next {| request := req; server := s; session := Some sess;
                      conn := Some (imapConn sess) |}
          ∧ evs = []
      | Err ErrSessionExpired =>
          o = Return None
          ∧ evs = [EvSetCookie {| Name := cookieName; Value := "";
                                  Expires := Some aLongTimeAgo; MaxAge := 0;
                                  Secure := false; HttpOnly := true |};
                   EvRedirect 302 "/login"]
      | Err err => o = Return (Some err) ∧ evs = []
      end.
Proof.
  intros Hv. rewrite (middleware_with_cookie s req w v Hv).
  destruct (fst (Get E v (pool w))) as [sess | err] eqn:Hget.
  - eexists _, _, []. cbn. by repeat split.
  - destruct err; run_handler.
    + eexists _, _, []. by repeat split.
    + eexists _, _, [_; _]. rewrite <- !app_assoc. cbn. by repeat split.
    + eexists _, _, []. by repeat split.
    + eexists _, _, []. by repeat split.
Qed.

End MiddlewareFacts.

(** The theorem at work: the live token tok-0 is passed on to the page
    handler with alice's session and connection, the unknown token tok-9 is
    sent back to the login page. *)
Lemma middleware_gets_session_witness :
  (∃ w',
     middleware (Demo.env 1010 None) Demo.srv
       (Demo.page_request "/mailbox/:mbox" "tok-0") Demo.world1 =
       Some (Next {| request := Demo.page_request "/mailbox/:mbox" "tok-0";
                     server := Demo.srv;
                     session := Some {| imapConn := 7%nat; username := "alice";
                                        password := "secret" |};
                     conn := Some 7%nat |}, w')
     ∧ trace w' = [EvPoolGet "tok-0"])
  ∧ (∃ w',
       middleware (Demo.env 1010 None) Demo.srv
         (Demo.page_request "/mailbox/:mbox" "tok-9") Demo.world1 =
         Some (Return None, w')
       ∧ trace w' =
         [EvPoolGet "tok-9";
          EvSetCookie {| Name := cookieName; Value := "";
                         Expires := Some aLongTimeAgo; MaxAge := 0;
                         Secure := false; HttpOnly := true |};
          EvRedirect 302 "/login"]).
Proof.
  split.
  - destruct (middleware_gets_session (Demo.env 1010 None) Demo.srv
                (Demo.page_request "/mailbox/:mbox" "tok-0") Demo.world1
                "tok-0" eq_refl)
      as (o & w' & evs & Hrun & _ & Htr & Hout).
    cbn in Hout. destruct Hout as [-> ->].
    exists w'. split; [exact Hrun | exact Htr].
  - destruct (middleware_gets_session (Demo.env 1010 None) Demo.srv
                (Demo.page_request "/mailbox/:mbox" "tok-9") Demo.world1
                "tok-9" eq_refl)
      as (o & w' & evs & Hrun & _ & Htr & Hout).
    cbn in Hout. destruct Hout as [-> ->].
    exists w'. split; [exact Hrun | exact Htr].
Defined.

(** ** Logout *)

Section LogoutFacts.
Context {ConnPool : Type}.
Variable E : Env ConnPool.

(** C2, as the code has it.  The logout handler calls the IMAP logout of
    the context's connection and no method of the pool.  When the IMAP
    logout fails, the handler returns the error "failed to logout:" followed
    by the failure, without touching the cookie and without a response of
    its own, and the error handler then logs that error and answers with
    status 500; when it succeeds, the handler sets the cleared cookie,
    redirects to /login with status 302 and returns nil. *)
Theorem handleLogout_logs_out (ctx : context ConnPool) (w : World ConnPool)
    (c : Conn) :
  conn ctx = Some c →
  ∃ r w', handleLogout E ctx w = Some (r, w')
    ∧ match Logout E c with
      | Some err =>
          let failure := ErrorString ("failed to logout: " ++ Error_ err) in
          r = Some failure
          ∧ trace w' = (trace w ++ [EvLogout c])%list
          ∧ ∃ w'' body,
              HTTPErrorHandler failure w' = Some (tt, w'')
              ∧ trace w'' =
                (trace w ++ [EvLogout c; EvLogError failure;
                             EvString 500 body])%list
      | None =>
          r = None
          ∧ trace w' =
            (trace w ++
             [EvLogout c;
              EvSetCookie {| Name := cookieName; Value := "";
                             Expires := Some aLongTimeAgo; MaxAge := 0;
                             Secure := false; HttpOnly := true |};
              EvRedirect 302 "/login"])%list
      end.
Proof.
  intros Hc. unfold handleLogout. rewrite Hc. run_handler.
  destruct (Logout E c) as [err |]; cbn.
  - eexists _, _. split; [reflexivity |]. split; [done |]. split; [done |].
    eexists _, _. split; [reflexivity |]. cbn. by rewrite <- !app_assoc.
  - eexists _, _. rewrite <- !app_assoc. by repeat split.
Qed.

End LogoutFacts.

(** The theorem at work on a logout that the IMAP server answers. *)
Lemma handleLogout_logs_out_witness :
  ∃ w', handleLogout (Demo.env 1010 None)
          {| request := Demo.page_request "/logout" "tok-0";
             server := Demo.srv; session := None; conn := Some 7%nat |}
          Demo.world1 = Some (None, w')
        ∧ trace w' =
          [EvLogout 7%nat;
           EvSetCookie {| Name := cookieName; Value := "";
                          Expires := Some aLongTimeAgo; MaxAge := 0;
                          Secure := false; HttpOnly := true |};
           EvRedirect 302 "/login"].
Proof.
  destruct (handleLogout_logs_out (Demo.env 1010 None)
              {| request := Demo.page_request "/logout" "tok-0";
                 server := Demo.srv; session := None; conn := Some 7%nat |}
              Demo.world1 7%nat eq_refl)
    as (r & w' & Hrun & Hr).
  cbn in Hr. destruct Hr as [-> Htr].
  exists w'. split; [exact Hrun | exact Htr].
Defined.

(** C2, as the claim words it, fails.  The logout handler runs for alice
    while her IMAP connection refuses the logout: the handler calls the IMAP
    logout and nothing else, no Delete of the pool among it, and returns the
    failure; the error handler then logs it and answers the client with
    status 500 and the text of the failure, and the cookie is not cleared. *)
Lemma logout_failure_reaches_client :
  let bye := Some (ErrorString "imap: connection closed") in
  let failure := ErrorString "failed to logout: imap: connection closed" in
  ∃ w' w'',
    handleLogout (Demo.env 1010 bye)
      {| request := Demo.page_request "/logout" "tok-0";
         server := Demo.srv; session := Some DemoPages.alice;
         conn := Some 7%nat |}
      Demo.world1 = Some (Some failure, w')
    ∧ trace w' = [EvLogout 7%nat]
    ∧ HTTPErrorHandler failure w' = Some (tt, w'')
    ∧ trace w'' =
      [EvLogout 7%nat; EvLogError failure;
       EvString 500 "failed to logout: imap: connection closed"].
Proof.
  eexists _, _. split; [reflexivity |]. split; [reflexivity |].
  split; reflexivity.
Qed.

(** ** The error handler *)

Section ErrorHandlerFacts.
Context {ConnPool : Type}.

(** C5, as the code has it.  An error that is an echo HTTPError is answered
    with its own status code and is not logged; every other error is logged
    first and answered with status 500.  The handler writes one response,
    leaves the pool alone and sets no cookie. *)
Theorem HTTPErrorHandler_logs_and_answers (err : error) (w : World ConnPool) :
  ∃ w' body, HTTPErrorHandler err w = Some (tt, w')
    ∧ pool w' = pool w
    ∧ trace w' =
      (trace w ++
       match err with
       | HTTPError code _ => [EvString code body]
       | _ => [EvLogError err; EvString 500 body]
       end)%list.
Proof.
  run_handler.
  destruct err; cbn; eexists _, _; rewrite <- ?app_assoc;
    by repeat split.
Qed.

End ErrorHandlerFacts.

(** C5, as the claim words it, fails on both counts.  A bad request error
    raised by a page handler is answered without being logged, and the
    failure of the pool to store a connection is answered with its full
    text: two internal failures give the client two different bodies. *)
Lemma HTTPErrorHandler_exposes_detail :
  (∃ w', HTTPErrorHandler
           (HTTPError 400 "invalid UID") Demo.world0 = Some (tt, w')
         ∧ trace w' = [EvString 400 "code=400, message=invalid UID"])
  ∧ (∃ w', HTTPErrorHandler
             (Errorf "failed to put connection in pool: "
                (ErrorString "pool: cannot allocate a session"))
             Demo.world0 = Some (tt, w')
           ∧ EvString 500
               "failed to put connection in pool: pool: cannot allocate a session"
             ∈ trace w')
  ∧ ¬ (∃ generic, ∀ err w',
         HTTPErrorHandler err Demo.world0 = Some (tt, w') →
         EvLogError err ∈ trace w' ∧ EvString 500 generic ∈ trace w').
Proof.
  split; [| split].
  - eexists. split; reflexivity.
  - eexists. split; [reflexivity |]. cbn. rewrite !elem_of_cons. tauto.
  - intros [generic H].
    destruct (H (HTTPError 400 "invalid UID") _ eq_refl) as [Hlog _].
    cbn in Hlog. rewrite !elem_of_cons, elem_of_nil in Hlog.
    destruct Hlog as [Hlog | []]. discriminate.
Qed.

(** ** The session store *)

Module SessionStoreFacts.
Import SessionStore.

Lemma Get_absent (P : Params) (now : Z) (t : string) (st : Store) :
  entries st !! t = None → Get P now t st = (Err ErrSessionExpired, st).
Proof. intros H. unfold Get. by rewrite H. Qed.

Lemma Get_expired_absent (P : Params) (now : Z) (t : string) (st : Store) :
  fst (Get P now t st) = Err ErrSessionExpired → entries st !! t = None.
Proof.
  unfold Get. destruct (entries st !! t) as [e |]; [| done].
  destruct (_ && _); [destruct (reauth P _ _) |]; cbn; discriminate.
Qed.

Lemma fresh_token_fresh (P : Params) (fuel k k' : nat)
    (m : gmap string Entry) (t : string) :
  fresh_token P fuel k m = Some (t, k') → m !! t = None.
Proof.
  revert k. induction fuel as [| fuel IH]; intros k; cbn; [done |].
  destruct (m !! NewToken P k) eqn:Hk.
  - apply IH.
  - by intros [= <- _].
Qed.

(** The entries after a call are among those before it, but for the token
    that a successful [Put] has just issued. *)
Lemma Put_entries (P : Params) (now : Z) (c : Conn) (u p : string)
    (st st' : Store) (r : result string) (t : string) :
  Put P now c u p st = (r, st') →
  is_Some (entries st' !! t) →
  is_Some (entries st !! t) ∨ r = Ok t.
Proof.
  unfold Put.
  destruct (fresh_token P (attempts P) (drawn st) (entries st))
    as [[t0 k] |]; intros [= <- <-]; cbn; [| by left].
  destruct (decide (t0 = t)) as [-> | Hne]; [by right |].
  rewrite lookup_insert_ne by done. by left.
Qed.

Lemma Get_entries (P : Params) (now : Z) (t0 t : string) (st : Store) :
  is_Some (entries (snd (Get P now t0 st)) !! t) →
  is_Some (entries st !! t).
Proof.
  unfold Get. destruct (entries st !! t0) as [e |] eqn:Ht0; [| done].
  assert (∀ e', is_Some (<[t0 := e']> (entries st) !! t) →
                is_Some (entries st !! t)) as Hins.
  { intros e'. destruct (decide (t0 = t)) as [-> | Hne].
    - by rewrite Ht0.
    - by rewrite lookup_insert_ne. }
  destruct (_ && _); [destruct (reauth P _ _) |]; cbn; try apply Hins.
  destruct (decide (t0 = t)) as [-> | Hne].
  - rewrite lookup_delete_eq. by intros [? ?].
  - by rewrite lookup_delete_ne.
Qed.

Lemma Delete_entries (t0 t : string) (st : Store) :
  is_Some (entries (Delete t0 st) !! t) → is_Some (entries st !! t).
Proof.
  unfold Delete. destruct (entries st !! t0) as [e |]; [| done]. cbn.
  destruct (decide (t0 = t)) as [-> | Hne].
  - rewrite lookup_delete_eq. by intros [? ?].
  - by rewrite lookup_delete_ne.
Qed.

Lemma Delete_gone (t : string) (st : Store) :
  entries (Delete t st) !! t = None.
Proof.
  unfold Delete. destruct (entries st !! t) as [e |] eqn:Ht; [| done].
  cbn. apply lookup_delete_eq.
Qed.

Lemma Reap_entries (P : Params) (now : Z) (t : string) (st : Store) :
  is_Some (entries (Reap P now st) !! t) → is_Some (entries st !! t).
Proof.
  unfold Reap. cbn. intros [e He].
  apply map_lookup_filter_Some in He as [He _]. by exists e.
Qed.

Lemma Reap_gone (P : Params) (now : Z) (t : string) (st : Store) (e : Entry) :
  entries st !! t = Some e →
  idleTimeout P < now - lastActive e →
  entries (Reap P now st) !! t = None.
Proof.
  intros He Hidle. unfold Reap. cbn.
  apply map_lookup_filter_None. right. intros e' He'.
  rewrite He in He'. injection He' as <-. cbn. unfold idle.
  apply Z.ltb_lt in Hidle. rewrite Hidle. discriminate.
Qed.

Lemma step_tracked (P : Params) (acc : Store * list string) (o : Z * op) :
  tracked acc → tracked (step P acc o).
Proof.
  destruct acc as [st issued], o as [now o]. unfold tracked. cbn.
  intros Hacc t. destruct o as [c u p | t0 | t0 |].
  - destruct (Put P now c u p st) as [r st'] eqn:Hput.
    assert (is_Some (entries st' !! t) → t ∈ issued ∨ r = Ok t) as Hcases.
    { intros Ht.
      destruct (Put_entries _ _ _ _ _ _ _ _ _ Hput Ht) as [Hold | ->];
        [left; by apply Hacc | by right]. }
    destruct r as [t1 | e]; cbn; intros Ht;
      destruct (Hcases Ht) as [Hin | Heq]; try done.
    + by apply list_elem_of_further.
    + injection Heq as ->. apply list_elem_of_here.
  - cbn. intros Ht. by apply Hacc, (Get_entries P now t0).
  - cbn. intros Ht. by apply Hacc, (Delete_entries t0).
  - cbn. intros Ht. by apply Hacc, (Reap_entries P now).
Qed.

Lemma fold_tracked (P : Params) (h : list (Z * op)) (acc : Store * list string) :
  tracked acc → tracked (fold_left (step P) h acc).
Proof.
  revert acc. induction h as [| o h IH]; intros acc Hacc; cbn; [done |].
  by apply IH, step_tracked.
Qed.

Lemma run_tracked (P : Params) (h : list (Z * op)) : tracked (run P h).
Proof.
  apply fold_tracked. intros t. cbn. rewrite lookup_empty. by intros [? ?].
Qed.

End SessionStoreFacts.

Module StoreHistoryFacts.
Import SessionStore StoreHistory.

Lemma step_issued (P : Params) (st : Store) (acc : list string) (o : Z * op) :
  step P (st, acc) o =
  (fst (step P (st, []) o), (snd (step P (st, []) o) ++ acc)%list).
Proof.
  destruct o as [now [c u p | t | t |]]; cbn; try done.
  by destruct (Put P now c u p st) as [[t | e] st'].
Qed.

Lemma fold_issued (P : Params) (h : list (Z * op)) (st : Store)
    (acc : list string) :
  fold_left (step P) h (st, acc) =
  (fst (run_from P st h), (snd (run_from P st h) ++ acc)%list).
Proof.
  unfold run_from. revert st acc.
  induction h as [| o h IH]; intros st acc; [done |].
  cbn [fold_left]. rewrite (step_issued P st acc o).
  destruct (step P (st, []) o) as [st1 new] eqn:Hstep. cbn [fst snd].
  rewrite (IH st1 (new ++ acc)%list), (IH st1 new). cbn [fst snd].
  by rewrite app_assoc.
Qed.

(** The history [h1], one more call [o] and then [h2]. *)
Lemma run_split (P : Params) (h1 h2 : list (Z * op)) (o : Z * op) :
  let st1 := fst (step P (run P h1) o) in
  fst (run P (h1 ++ o :: h2)) = fst (run_from P st1 h2)
  ∧ ∀ t, t ∈ snd (run P (h1 ++ o :: h2)) →
         t ∈ snd (run_from P st1 h2) ∨ t ∈ snd (step P (run P h1) o).
Proof.
  cbn zeta. unfold run. rewrite fold_left_app. cbn [fold_left].
  destruct (step P (fold_left (step P) h1 (NewConnPool, [])) o)
    as [st1 iss1]. cbn [fst snd].
  rewrite (fold_issued P h2 st1 iss1). cbn [fst snd]. split; [done |].
  intros t. rewrite elem_of_app. tauto.
Qed.

(** A token held after [h] was held before it or has been issued by it. *)
Lemma fold_held (P : Params) (st : Store) (h : list (Z * op))
    (acc : Store * list string) :
  (∀ t, is_Some (entries (fst acc) !! t) →
        t ∈ snd acc ∨ is_Some (entries st !! t)) →
  ∀ t, is_Some (entries (fst (fold_left (step P) h acc)) !! t) →
       t ∈ snd (fold_left (step P) h acc) ∨ is_Some (entries st !! t).
Proof.
  revert acc. induction h as [| o h IH]; intros acc Hacc; [done |].
  cbn [fold_left]. apply IH. clear IH.
  destruct acc as [cur iss], o as [now o]. cbn in Hacc.
  intros t. destruct o as [c u p | t0 | t0 |]; cbn.
  - destruct (Put P now c u p cur) as [r st'] eqn:Hput.
    assert (is_Some (entries st' !! t) →
            (t ∈ iss ∨ is_Some (entries st !! t)) ∨ r = Ok t) as Hc.
    { intros Ht.
      destruct (SessionStoreFacts.Put_entries _ _ _ _ _ _ _ _ _ Hput Ht)
        as [Hold | ->]; [left; by apply Hacc | by right]. }
    destruct r as [t1 | e]; cbn; intros Ht;
      destruct (Hc Ht) as [[Hin | Hst] | Heq]; try done.
    + left. by apply list_elem_of_further.
    + by right.
    + injection Heq as ->. left. apply list_elem_of_here.
    + by left.
    + by right.
  - intros Ht. by apply Hacc, (SessionStoreFacts.Get_entries P now t0).
  - intros Ht. by apply Hacc, (SessionStoreFacts.Delete_entries t0).
  - intros Ht. by apply Hacc, (SessionStoreFacts.Reap_entries P now).
Qed.

(** A token that the store does not hold and that no [Put] of [h] issues
    is not held after [h]. *)
Lemma absent_after (P : Params) (h : list (Z * op)) (st : Store) (t : string) :
  entries st !! t = None →
  t ∉ snd (run_from P st h) →
  entries (fst (run_from P st h)) !! t = None.
Proof.
  intros Habs Hnew.
  destruct (entries (fst (run_from P st h)) !! t) as [e |] eqn:He; [| done].
  exfalso.
  destruct (fold_held P st h (st, []) ltac:(by right) t) as [Hin | Hin].
  - fold (run_from P st h). by rewrite He.
  - by apply Hnew.
  - rewrite Habs in Hin. by destruct Hin.
Qed.

Lemma fresh_token_index (P : Params) (fuel k k' : nat)
    (m : gmap string Entry) (t : string) :
  fresh_token P fuel k m = Some (t, k') →
  ∃ j, (k ≤ j < k')%nat ∧ t = NewToken P j.
Proof.
  revert k. induction fuel as [| fuel IH]; intros k; cbn; [done |].
  destruct (m !! NewToken P k).
  - intros H. destruct (IH _ H) as (j & Hj & ->). exists j. split; [lia | done].
  - intros [= <- <-]. exists k. split; [lia | done].
Qed.

Lemma Get_drawn (P : Params) (now : Z) (t : string) (st : Store) :
  drawn (snd (Get P now t st)) = drawn st.
Proof.
  unfold Get. destruct (entries st !! t); [| done].
  destruct (_ && _); [destruct (reauth P _ _) |]; done.
Qed.

Lemma Delete_drawn (t : string) (st : Store) :
  drawn (Delete t st) = drawn st.
Proof. unfold Delete. by destruct (entries st !! t). Qed.

(** The tokens issued by [h] on [st] are values of the generator at the
    positions drawn during [h]. *)
Lemma issued_positions (P : Params) (h : list (Z * op)) (st : Store) :
  (drawn st ≤ drawn (fst (run_from P st h)))%nat
  ∧ ∀ t, t ∈ snd (run_from P st h) →
         ∃ k, (drawn st ≤ k < drawn (fst (run_from P st h)))%nat
              ∧ t = NewToken P k.
Proof.
  unfold run_from.
  assert (∀ acc,
            ((drawn st ≤ drawn (fst acc))%nat
             ∧ ∀ t, t ∈ snd acc →
                    ∃ k, (drawn st ≤ k < drawn (fst acc))%nat
                         ∧ t = NewToken P k) →
            (drawn st ≤ drawn (fst (fold_left (step P) h acc)))%nat
            ∧ ∀ t, t ∈ snd (fold_left (step P) h acc) →
                   ∃ k, (drawn st ≤ k
                         < drawn (fst (fold_left (step P) h acc)))%nat
                        ∧ t = NewToken P k) as Hfold.
  { induction h as [| o h IH]; intros acc Hacc; [done |].
    cbn [fold_left]. apply IH. clear IH.
    destruct acc as [cur iss], o as [now o], Hacc as [Hle Hiss].
    cbn in Hle, Hiss.
    destruct o as [c u p | t0 | t0 |]; cbn.
    - unfold Put.
      destruct (fresh_token P (attempts P) (drawn cur) (entries cur))
        as [[t1 k'] |] eqn:Hfresh; cbn; [| by split].
      destruct (fresh_token_index _ _ _ _ _ _ Hfresh) as (j & Hj & ->).
      split; [lia |]. intros t. rewrite elem_of_cons. intros [-> | Hin].
      + exists j. split; [lia | done].
      + destruct (Hiss t Hin) as (k & Hk & ->). exists k. split; [lia | done].
    - rewrite Get_drawn. by split.
    - rewrite Delete_drawn. by split.
    - by split. }
  apply (Hfold (st, [])). cbn. split; [lia |].
  intros t Hin. by apply elem_of_nil in Hin.
Qed.

(** With a generator that never repeats, a token issued before is not
    issued again. *)
Lemma not_reissued (P : Params) (h1 h2 : list (Z * op)) (st : Store)
    (t : string) :
  never_repeats P →
  drawn st = drawn (fst (run P h1)) →
  t ∈ snd (run P h1) →
  t ∉ snd (run_from P st h2).
Proof.
  intros Hinj Hdrawn Hold Hnew.
  destruct (issued_positions P h1 NewConnPool) as [_ H1].
  destruct (H1 t Hold) as (k & Hk & ->).
  destruct (issued_positions P h2 st) as [_ H2].
  destruct (H2 _ Hnew) as (k' & Hk' & Heq).
  apply Hinj in Heq. unfold run, run_from in *. lia.
Qed.

End StoreHistoryFacts.

(** C7.  After any history of calls on a new store, [Get] of a token that
    no [Put] of the history has issued fails with [ErrSessionExpired] and
    leaves the store as it is.  So does [Get] of a token that the history
    has deleted, or that a scan of the reaper in the history has found idle
    past the timeout, whatever calls came after, as long as no later [Put]
    issued the token again; and with a generator that never repeats no
    later [Put] does, so that a token once issued and since deleted or
    reaped stays expired for good.  All these failures are the same value,
    and the middleware answers every one of them alike: it sets the cleared
    cookie and redirects to /login, whatever the past of the token. *)
Theorem Get_unknown_token_expired (P : SessionStore.Params)
    (h : list (Z * SessionStore.op)) (now : Z) (t : string) :
  let st := fst (SessionStore.run P h) in
  let expired := SessionStore.Get P now t st = (Err ErrSessionExpired, st) in
  (t ∉ snd (SessionStore.run P h) → expired)
  ∧ (∀ h1 h2 d,
       h = (h1 ++ (d, SessionStore.OpDelete t) :: h2)%list →
       t ∉ snd (StoreHistory.run_from P
                  (SessionStore.Delete t (fst (SessionStore.run P h1))) h2)
       ∨ StoreHistory.never_repeats P ∧ t ∈ snd (SessionStore.run P h1) →
       expired)
  ∧ (∀ h1 h2 scan e,
       h = (h1 ++ (scan, SessionStore.OpReap) :: h2)%list →
       SessionStore.entries (fst (SessionStore.run P h1)) !! t = Some e →
       SessionStore.idleTimeout P < scan - SessionStore.lastActive e →
       t ∉ snd (StoreHistory.run_from P
                  (SessionStore.Reap P scan (fst (SessionStore.run P h1))) h2)
       ∨ StoreHistory.never_repeats P →
       expired)
  ∧ (∀ st' dial login logout s req w,
       fst (SessionStore.Get P now t st') = Err ErrSessionExpired →
       ctx_Cookie req cookieName = Ok t →
       pool w = st' →
       middleware (store_env P now dial login logout) s req w =
       Some (Return None,
             {| pool := st';
                trace := trace w ++
                  [EvPoolGet t;
                   EvSetCookie {| Name := cookieName; Value := "";
                                  Expires := Some aLongTimeAgo; MaxAge := 0;
                                  Secure := false; HttpOnly := true |};
                   EvRedirect 302 "/login"] |})).
Proof.
  intros st expired. subst expired. split; [| split; [| split]].
  - intros Hnew. apply SessionStoreFacts.Get_absent.
    destruct (SessionStore.entries st !! t) as [e |] eqn:He; [| done].
    exfalso. apply Hnew.
    apply (SessionStoreFacts.run_tracked P h t). fold st. by rewrite He.
  - intros h1 h2 d Hh Hlater. apply SessionStoreFacts.Get_absent.
    subst st h.
    destruct (StoreHistoryFacts.run_split P h1 h2 (d, SessionStore.OpDelete t))
      as [-> _].
    destruct (SessionStore.run P h1) as [st1 iss1] eqn:Hrun1. cbn [fst snd] in *.
    cbn. apply StoreHistoryFacts.absent_after.
    + apply SessionStoreFacts.Delete_gone.
    + destruct Hlater as [Hnew | [Hinj Hold]]; [done |].
      apply (StoreHistoryFacts.not_reissued P h1 h2); [done | |].
      * rewrite Hrun1. cbn. apply StoreHistoryFacts.Delete_drawn.
      * by rewrite Hrun1.
  - intros h1 h2 scan e Hh He Hidle Hlater.
    apply SessionStoreFacts.Get_absent. subst st h.
    destruct (StoreHistoryFacts.run_split P h1 h2 (scan, SessionStore.OpReap))
      as [-> _].
    pose proof (SessionStoreFacts.run_tracked P h1 t) as Htracked.
    destruct (SessionStore.run P h1) as [st1 iss1] eqn:Hrun1. cbn [fst snd] in *.
    cbn. apply StoreHistoryFacts.absent_after.
    + by apply (SessionStoreFacts.Reap_gone _ _ _ _ e).
    + destruct Hlater as [Hnew | Hinj]; [done |].
      apply (StoreHistoryFacts.not_reissued P h1 h2); [done | |].
      * by rewrite Hrun1.
      * rewrite Hrun1. cbn. apply Htracked. by rewrite He.
  - intros st' dial login logout s req w Hget Hcookie Hpool.
    rewrite (middleware_with_cookie _ s req w t Hcookie). cbn. subst st'.
    pose proof (SessionStoreFacts.Get_expired_absent _ _ _ _ Hget) as Habs.
    rewrite (SessionStoreFacts.Get_absent P now t (pool w) Habs). cbn.
    run_handler. by rewrite <- !app_assoc.
Qed.

(** The theorem at work: alice logs in, uses her session and logs out, and
    bob logs in after her; her old token tok-0 and the token tok-9 that
    nobody ever held get the same answer, while bob's tok-1 resolves. *)
Lemma Get_unknown_token_expired_witness :
  let h := [(1000, SessionStore.OpPut 7%nat "alice" "secret");
            (1010, SessionStore.OpGet "tok-0");
            (1020, SessionStore.OpDelete "tok-0");
            (1030, SessionStore.OpPut 8%nat "bob" "hunter2")] in
  let st := fst (SessionStore.run Demo.params h) in
  snd (SessionStore.run Demo.params h) = ["tok-1"; "tok-0"]
  ∧ SessionStore.Get Demo.params 1040 "tok-9" st = (Err ErrSessionExpired, st)
  ∧ SessionStore.Get Demo.params 1040 "tok-0" st = (Err ErrSessionExpired, st)
  ∧ fst (SessionStore.Get Demo.params 1040 "tok-1" st)
    = Ok {| imapConn := 8%nat; username := "bob"; password := "hunter2" |}.
Proof.
  intros h st. split; [reflexivity |].
  pose proof (Get_unknown_token_expired Demo.params h 1040 "tok-9") as H9.
  pose proof (Get_unknown_token_expired Demo.params h 1040 "tok-0") as H0.
  cbv zeta in H9, H0. fold st in H9, H0.
  destruct H9 as [H9 _]. destruct H0 as (_ & H0 & _).
  split; [| split].
  - apply H9. change (snd (SessionStore.run Demo.params h))
      with ["tok-1"; "tok-0"].
    intros Hin. apply elem_of_cons in Hin as [Hin | Hin]; [discriminate |].
    apply list_elem_of_singleton in Hin. discriminate.
  - apply (H0 [(1000, SessionStore.OpPut 7%nat "alice" "secret");
               (1010, SessionStore.OpGet "tok-0")]
              [(1030, SessionStore.OpPut 8%nat "bob" "hunter2")] 1020 eq_refl).
    left.
    change (snd (StoreHistory.run_from Demo.params _ _)) with ["tok-1"].
    intros Hin. apply list_elem_of_singleton in Hin. discriminate.
  - reflexivity.
Defined.

(** * Further properties of the server *)

(** ** The middleware and the dispatch *)

Section DispatchFacts.
Context {ConnPool : Type}.
Variable E : Env ConnPool.

(** X1.  A request without the session cookie never reaches the pool: on
    the route /login it is passed on with neither session nor connection,
    on every other route it is redirected to /login with status 302 and the
    page handler is not called. *)
Theorem middleware_requires_login (s : Server ConnPool) (req : Request)
    (w : World ConnPool) :
  assoc cookieName (Cookies req) = None →
  ∃ o w', middleware E s req w = Some (o, w')
    ∧ pool w' = pool w
    ∧ (Path req = "/login" →
       o = Next {| request := req; server := s; session := None;
                   conn := None |}
       ∧ trace w' = trace w)
    ∧ (Path req ≠ "/login" →
       o = Return None
       ∧ trace w' = (trace w ++ [EvRedirect 302 "/login"])%list).
Proof.
  intros Hnone. unfold middleware, ctx_Cookie. rewrite Hnone.
  destruct (String.eqb_spec (Path req) "/login") as [Hp | Hp].
  - eexists _, _. split; [reflexivity |]. by repeat split.
  - run_handler. eexists _, _. split; [reflexivity |]. by repeat split.
Qed.

(** X2.  When the pool's [Get] fails with anything but [ErrSessionExpired],
    the page handler is not run, whatever it is, and the cookie is left
    alone: the error goes to the error handler, which answers with the code
    of an HTTPError and otherwise logs the error and answers 500. *)
Theorem serve_pool_failure (s : Server ConnPool)
    (h : context ConnPool → M ConnPool (option error)) (req : Request)
    (w : World ConnPool) (v : string) (e : error) :
  ctx_Cookie req cookieName = Ok v →
  fst (Get E v (pool w)) = Err e →
  e ≠ ErrSessionExpired →
  ∃ w', serve E s h req w = Some (tt, w')
    ∧ pool w' = snd (Get E v (pool w))
    ∧ trace w' =
      (trace w ++ EvPoolGet v ::
       match e with
       | HTTPError code _ => [EvString code (Error_ e)]
       | _ => [EvLogError e; EvString 500 (Error_ e)]
       end)%list.
Proof.
  intros Hv Hget Hne. unfold serve, bind at 1.
  rewrite (middleware_with_cookie E s req w v Hv). cbn. rewrite Hget.
  destruct e; try done; run_handler; eexists;
    (split; [reflexivity |]); rewrite <- ?app_assoc; by split.
Qed.

(** X3.  A page handler on any route but /login only ever runs with a
    session: when the middleware passes a request on, the request carried
    the session cookie, the pool's [Get] returned a session for its value,
    and the context holds that session and its connection. *)
Theorem middleware_next_has_session (s : Server ConnPool) (req : Request)
    (w w' : World ConnPool) (ctx : context ConnPool) :
  middleware E s req w = Some (Next ctx, w') →
  Path req ≠ "/login" →
  ∃ v sess, ctx_Cookie req cookieName = Ok v
    ∧ Get E v (pool w) = (Ok sess, pool w')
    ∧ ctx = {| request := req; server := s; session := Some sess;
               conn := Some (imapConn sess) |}.
Proof.
  intros Hrun Hpath.
  destruct (ctx_Cookie req cookieName) as [v | e] eqn:Hv.
  - rewrite (middleware_with_cookie E s req w v Hv) in Hrun. cbn in Hrun.
    destruct (Get E v (pool w)) as [[sess | err] p] eqn:Hget; cbn in Hrun.
    + injection Hrun as <- <-. by exists v, sess.
    + destruct err; run_handler; cbn in Hrun; discriminate.
  - unfold middleware in Hrun. rewrite Hv in Hrun.
    apply String.eqb_neq in Hpath. rewrite Hpath in Hrun.
    destruct e; run_handler; cbn in Hrun; discriminate.
Qed.

(** X4.  Served on any route but /login, the logout handler never
    dereferences a nil connection: the request completes, whatever the
    cookie, the pool and the IMAP server do. *)
Theorem serve_logout_completes (s : Server ConnPool) (req : Request)
    (w : World ConnPool) :
  Path req ≠ "/login" →
  ∃ w', serve E s (handleLogout E) req w = Some (tt, w').
Proof.
  intros Hpath. unfold serve, bind at 1.
  destruct (ctx_Cookie req cookieName) as [v | e] eqn:Hv.
  - rewrite (middleware_with_cookie E s req w v Hv). cbn.
    destruct (Get E v (pool w)) as [[sess | err] p]; cbn.
    + unfold handleLogout. cbn. unfold bind at 1. unfold bind at 1. cbn.
      destruct (Logout E (imapConn sess)) as [err |]; run_handler;
        by eexists.
    + destruct err; run_handler; by eexists.
  - unfold middleware. rewrite Hv. apply String.eqb_neq in Hpath.
    destruct e; rewrite ?Hpath; run_handler; by eexists.
Qed.

End DispatchFacts.

(** The four theorems at work on the concrete deployment. *)
Lemma middleware_requires_login_witness :
  ∃ w', middleware (Demo.env 1010 None) Demo.srv
          {| Path := "/mailbox/:mbox"; Method := "GET"; Cookies := [];
             Form := [] |} Demo.world1 = Some (Return None, w')
        ∧ trace w' = [EvRedirect 302 "/login"].
Proof.
  destruct (middleware_requires_login (Demo.env 1010 None) Demo.srv
              {| Path := "/mailbox/:mbox"; Method := "GET"; Cookies := [];
                 Form := [] |} Demo.world1 eq_refl)
    as (o & w' & Hrun & _ & _ & Hother).
  destruct (Hother ltac:(discriminate)) as [-> Htr].
  exists w'. split; [exact Hrun | exact Htr].
Defined.

Lemma serve_pool_failure_witness :
  ∃ w', serve (DemoPages.dead_env 2000) Demo.srv
          (handleLogout (DemoPages.dead_env 2000))
          (Demo.page_request "/logout" "tok-0") Demo.world1 = Some (tt, w')
        ∧ trace w' = [EvPoolGet "tok-0";
                      EvLogError (ErrorString "session broken");
                      EvString 500 "session broken"].
Proof.
  destruct (serve_pool_failure (DemoPages.dead_env 2000) Demo.srv
              (handleLogout (DemoPages.dead_env 2000))
              (Demo.page_request "/logout" "tok-0") Demo.world1 "tok-0"
              (ErrorString "session broken") eq_refl eq_refl
              ltac:(discriminate))
    as (w' & Hrun & _ & Htr).
  exists w'. split; [exact Hrun | exact Htr].
Defined.

Lemma middleware_next_has_session_witness :
  ∃ v sess,
    ctx_Cookie (Demo.page_request "/mailbox/:mbox" "tok-0") cookieName = Ok v
    ∧ sess = {| imapConn := 7%nat; username := "alice";
                password := "secret" |}.
Proof.
  destruct (middleware_next_has_session (Demo.env 1010 None) Demo.srv
              (Demo.page_request "/mailbox/:mbox" "tok-0") Demo.world1
              {| pool := snd (SessionStore.Get Demo.params 1010 "tok-0"
                                Demo.logged_in);
                 trace := [EvPoolGet "tok-0"] |}
              {| request := Demo.page_request "/mailbox/:mbox" "tok-0";
                 server := Demo.srv;
                 session := Some {| imapConn := 7%nat; username := "alice";
                                    password := "secret" |};
                 conn := Some 7%nat |}
              eq_refl ltac:(discriminate))
    as (v & sess & Hv & Hget & Hctx).
  exists v, sess. split; [exact Hv |].
  by injection Hctx as ->.
Defined.

Lemma serve_logout_completes_witness :
  ∃ w', serve (Demo.env 1010 None) Demo.srv (handleLogout (Demo.env 1010 None))
          (Demo.page_request "/logout" "tok-0") Demo.world1 = Some (tt, w').
Proof.
  apply (serve_logout_completes (Demo.env 1010 None) Demo.srv
           (Demo.page_request "/logout" "tok-0") Demo.world1).
  discriminate.
Defined.

(** ** The login handler, on every path *)

Section LoginPaths.
Context {ConnPool : Type}.
Variable E : Env ConnPool.

(** X5.  Whatever the form, the IMAP server and the pool do, [handleLogin]
    sets a cookie only when it returns nil after the dial and the IMAP login
    have succeeded and [Put] has returned a token for that connection, and
    the cookie's value is this token; on every path the pool is left as it
    was or as that [Put] left it. *)
Theorem handleLogin_cookie_is_issued_token (ctx : context ConnPool)
    (w w' : World ConnPool) (r : option error) :
  let user := FormValue (request ctx) "username" in
  let pass := FormValue (request ctx) "password" in
  handleLogin E ctx w = Some (r, w') →
  ∃ evs, trace w' = (trace w ++ evs)%list
    ∧ (∀ cookie, EvSetCookie cookie ∈ evs →
         r = None
         ∧ ∃ c, connectIMAP E (server ctx) = Ok c
                ∧ Login E c user pass = None
                ∧ Put E c user pass (pool w) = (Ok (Value cookie), pool w'))
    ∧ (pool w' = pool w
       ∨ ∃ c, connectIMAP E (server ctx) = Ok c
              ∧ pool w' = snd (Put E c user pass (pool w))).
Proof.
  intros user pass. subst user pass. unfold handleLogin.
  destruct (negb _ && negb _).
  - run_handler. destruct (connectIMAP E (server ctx)) as [c | e] eqn:Hdial;
      cbn.
    + destruct (Login E c _ _) as [e |] eqn:Hlogin; cbn.
      * intros [= <- <-]. eexists. rewrite <- !app_assoc.
        split; [reflexivity |]. split; [| by left].
        intros cookie Hin. cbn in Hin.
        rewrite !elem_of_cons, elem_of_nil in Hin.
        destruct Hin as [? | [? | [? | [? | []]]]]; discriminate.
      * destruct (Put E c _ _ (pool w)) as [[tok | e] p] eqn:Hput; cbn.
        -- intros [= <- <-]. eexists. rewrite <- !app_assoc.
           split; [reflexivity |]. split.
           ++ intros cookie Hin. cbn in Hin.
              rewrite !elem_of_cons, elem_of_nil in Hin.
              destruct Hin as [? | [? | [? | [Hc | [? | []]]]]];
                try discriminate.
              injection Hc as ->. split; [done |]. exists c.
              repeat split; try done. cbn.
              by destruct (String.eqb tok "").
           ++ right. exists c. by rewrite Hput.
        -- intros [= <- <-]. eexists. rewrite <- !app_assoc.
           split; [reflexivity |]. split.
           ++ intros cookie Hin. cbn in Hin.
              rewrite !elem_of_cons, elem_of_nil in Hin.
              destruct Hin as [? | [? | [? | []]]]; discriminate.
           ++ right. exists c. by rewrite Hput.
    + intros [= <- <-]. exists [EvConnectIMAP]. split; [done |].
      split; [| by left]. intros cookie Hin.
      rewrite list_elem_of_singleton in Hin. discriminate.
  - run_handler. intros [= <- <-]. eexists. split; [reflexivity |].
    split; [| by left]. intros cookie Hin.
    rewrite list_elem_of_singleton in Hin. discriminate.
Qed.

(** X6.  When the form is filled in and the dial fails, [handleLogin]
    returns the dial's error as it is, after that one call: no login is
    attempted, the pool is not called, nothing is written to the response. *)
Theorem handleLogin_dial_failure (ctx : context ConnPool)
    (w : World ConnPool) (err : error) :
  FormValue (request ctx) "username" ≠ "" →
  FormValue (request ctx) "password" ≠ "" →
  connectIMAP E (server ctx) = Err err →
  handleLogin E ctx w =
  Some (Some err, {| pool := pool w; trace := trace w ++ [EvConnectIMAP] |}).
Proof.
  intros Hu Hp Hdial. unfold handleLogin.
  rewrite (eqb_empty_false _ Hu), (eqb_empty_false _ Hp).
  run_handler. by rewrite Hdial.
Qed.

(** X7.  When the login succeeds but [Put] fails, [handleLogin] returns the
    error "failed to put connection in pool:" followed by the cause; it sets
    no cookie, writes no response and does not log the connection out. *)
Theorem handleLogin_put_failure (ctx : context ConnPool)
    (w : World ConnPool) (c : Conn) (err : error) (p' : ConnPool) :
  let user := FormValue (request ctx) "username" in
  let pass := FormValue (request ctx) "password" in
  user ≠ "" → pass ≠ "" →
  connectIMAP E (server ctx) = Ok c →
  Login E c user pass = None →
  Put E c user pass (pool w) = (Err err, p') →
  handleLogin E ctx w =
  Some (Some (ErrorString ("failed to put connection in pool: " ++ Error_ err)),
        {| pool := p';
           trace := trace w ++ [EvConnectIMAP; EvLogin c user pass;
                                EvPoolPut c user pass] |}).
Proof.
  intros user pass Hu Hp Hdial Hlogin Hput. subst user pass.
  unfold handleLogin.
  rewrite (eqb_empty_false _ Hu), (eqb_empty_false _ Hp).
  run_handler. rewrite Hdial. cbn. rewrite Hlogin. cbn. rewrite Hput. cbn.
  by rewrite <- !app_assoc.
Qed.

End LoginPaths.

Lemma handleLogin_cookie_is_issued_token_witness :
  ∃ evs,
    [EvConnectIMAP; EvLogin 7%nat "alice" "secret";
     EvPoolPut 7%nat "alice" "secret";
     EvSetCookie {| Name := cookieName; Value := "tok-0"; Expires := None;
                    MaxAge := 0; Secure := false; HttpOnly := true |};
     EvRedirect 302 "/mailbox/INBOX"] = ([] ++ evs)%list
    ∧ ∀ cookie, EvSetCookie cookie ∈ evs →
        SessionStore.Put Demo.params 1000 7%nat "alice" "secret"
          SessionStore.NewConnPool = (Ok (Value cookie), Demo.logged_in).
Proof.
  destruct (handleLogin_cookie_is_issued_token (Demo.env 1000 None)
              (Demo.login_context "alice" "secret") Demo.world0
              {| pool := Demo.logged_in;
                 trace := [EvConnectIMAP; EvLogin 7%nat "alice" "secret";
                           EvPoolPut 7%nat "alice" "secret";
                           EvSetCookie {| Name := cookieName; Value := "tok-0";
                                          Expires := None; MaxAge := 0;
                                          Secure := false; HttpOnly := true |};
                           EvRedirect 302 "/mailbox/INBOX"] |}
              None eq_refl)
    as (evs & Htr & Hcookie & _).
  exists evs. split; [exact Htr |].
  intros cookie Hin. destruct (Hcookie cookie Hin) as (_ & c & Hdial & _ & Hput).
  injection Hdial as <-. exact Hput.
Defined.

Lemma handleLogin_dial_failure_witness :
  let refused := ErrorString "dial tcp: connection refused" in
  let E := store_env Demo.params 1000 (fun _ => Err refused) Demo.login
             (fun _ => None) in
  handleLogin E (Demo.login_context "alice" "secret") Demo.world0 =
  Some (Some refused,
        {| pool := SessionStore.NewConnPool; trace := [EvConnectIMAP] |}).
Proof.
  intros refused E.
  apply (handleLogin_dial_failure E (Demo.login_context "alice" "secret")
           Demo.world0 refused).
  - discriminate.
  - discriminate.
  - reflexivity.
Defined.

Lemma handleLogin_put_failure_witness :
  let full := {| SessionStore.NewToken := fun _ => "tok";
                 SessionStore.attempts := 0%nat;
                 SessionStore.keepAlive := 60;
                 SessionStore.idleTimeout := 1800;
                 SessionStore.probe := fun _ => true;
                 SessionStore.reauth := fun _ _ => None |} in
  let E := store_env full 1000 Demo.dial Demo.login (fun _ => None) in
  ∃ w', handleLogin E (Demo.login_context "alice" "secret") Demo.world0 =
        Some (Some (ErrorString
                      "failed to put connection in pool: pool: cannot allocate a session"),
              w').
Proof.
  intros full E. eexists.
  apply (handleLogin_put_failure E (Demo.login_context "alice" "secret")
           Demo.world0 7%nat
           (ErrorString "pool: cannot allocate a session")
           SessionStore.NewConnPool).
  - discriminate.
  - discriminate.
  - reflexivity.
  - reflexivity.
  - reflexivity.
Defined.

(** ** The server configuration, end to end *)

Lemma string_app_assoc (a b c : string) : (a ++ b) ++ c = a ++ b ++ c.
Proof.
  induction a as [| x a IH]; [done |].
  change ((String x a ++ b) ++ c) with (String x ((a ++ b) ++ c)).
  change (String x a ++ b ++ c) with (String x (a ++ b ++ c)).
  by rewrite IH.
Qed.

Lemma prefix_app (p s : string) : String.prefix p (p ++ s) = true.
Proof.
  induction p as [| c p IH]; simpl; [by destruct s |].
  destruct (Ascii.ascii_dec c c); [exact IH | done].
Qed.

Section NewServerPaths.
Context {ConnPool : Type}.
Variable NewConnPool : ConnPool.
Variable url_Parse : string -> result URL.

Lemma NewServer_unfold (imapURL smtpURL : string) :
  NewServer NewConnPool url_Parse imapURL smtpURL =
  match parseIMAPURL url_Parse (@zeroServer ConnPool) imapURL with
  | (_, Some err) => (None, Some err)
  | (s, None) =>
      if String.eqb smtpURL "" then
        (Some (set_imap_pool (Some NewConnPool) s), None)
      else
        match parseSMTPURL url_Parse
                (set_imap_pool (Some NewConnPool) s) smtpURL with
        | (_, Some err) => (None, Some err)
        | (s', None) => (Some s', None)
        end
  end.
Proof.
  unfold NewServer.
  destruct (parseIMAPURL url_Parse (@zeroServer ConnPool) imapURL) as [s [e |]]; [done |].
  by destruct (String.eqb smtpURL "").
Qed.

Lemma parseSMTPURL_accepted (s : Server ConnPool) (raw : string) :
  url_accepted url_Parse smtp_schemes raw = true →
  snd (parseSMTPURL url_Parse s raw) = None.
Proof.
  unfold url_accepted. intros Hacc.
  destruct (url_Parse raw) as [u | e] eqn:Hu; [| done].
  rewrite (parseSMTPURL_parsed url_Parse s raw u Hu).
  apply bool_decide_eq_true in Hacc.
  destruct (smtp_mode (Scheme u)) as [[| |] |] eqn:Hm; try done.
  apply scheme_mode_None_elem in Hm. done.
Qed.

(** X8.  [NewServer] returns either a server and no error or an error and
    no server, never both and never neither; it returns a server exactly
    when the IMAP URL parses to one of the three IMAP schemes and the SMTP
    URL is empty or parses to one of the three SMTP schemes. *)
Theorem NewServer_succeeds_iff (imapURL smtpURL : string) :
  ((∃ s, NewServer NewConnPool url_Parse imapURL smtpURL = (Some s, None))
   ∨ (∃ e, NewServer NewConnPool url_Parse imapURL smtpURL = (None, Some e)))
  ∧ ((∃ s, NewServer NewConnPool url_Parse imapURL smtpURL = (Some s, None))
     ↔ url_accepted url_Parse imap_schemes imapURL = true
       ∧ (smtpURL = ""
          ∨ url_accepted url_Parse smtp_schemes smtpURL = true)).
Proof.
  rewrite NewServer_unfold.
  destruct (url_accepted url_Parse imap_schemes imapURL) eqn:Hi.
  - destruct (parseIMAPURL_accepted url_Parse (@zeroServer ConnPool) imapURL Hi)
      as [Herr _].
    destruct (parseIMAPURL url_Parse (@zeroServer ConnPool) imapURL) as [s err].
    cbn in Herr. subst err.
    destruct (String.eqb_spec smtpURL "") as [-> | Hne].
    + split; [left; by eexists |]. split; [intros _ | intros _; by eexists].
      split; [done | by left].
    + destruct (url_accepted url_Parse smtp_schemes smtpURL) eqn:Hs.
      * pose proof (parseSMTPURL_accepted
                      (set_imap_pool (Some NewConnPool) s) smtpURL Hs) as He.
        destruct (parseSMTPURL url_Parse _ smtpURL) as [s' err].
        cbn in He. subst err.
        split; [left; by eexists |]. split; [intros _ | intros _; by eexists].
        split; [done | by right].
      * destruct (parseSMTPURL_rejected url_Parse
                    (set_imap_pool (Some NewConnPool) s) smtpURL Hs)
          as [e He].
        destruct (parseSMTPURL url_Parse _ smtpURL) as [s' err].
        cbn in He. subst err.
        split; [right; by eexists |]. split.
        -- intros [? [=]].
        -- intros [_ [? | ?]]; done.
  - destruct (parseIMAPURL_rejected url_Parse (@zeroServer ConnPool) imapURL Hi)
      as [e He].
    destruct (parseIMAPURL url_Parse (@zeroServer ConnPool) imapURL) as [s err].
    cbn in He. subst err.
    split; [right; by eexists |]. split.
    + intros [? [=]].
    + intros [? _]. done.
Qed.

(** X9.  When both URLs are given and accepted, the server that [NewServer]
    returns holds the host of the IMAP URL with the flags of its scheme,
    the host of the SMTP URL with the flags of its scheme, and a new pool. *)
Theorem NewServer_configures (imapURL smtpURL : string) (ui us : URL)
    (mi ms : Mode) :
  url_Parse imapURL = Ok ui →
  imap_mode (Scheme ui) = Some mi →
  smtpURL ≠ "" →
  url_Parse smtpURL = Ok us →
  smtp_mode (Scheme us) = Some ms →
  NewServer NewConnPool url_Parse imapURL smtpURL =
  (Some {| imap := {| imap_host := Host ui;
                      imap_tls := fst (mode_flags mi);
                      imap_insecure := snd (mode_flags mi);
                      imap_pool := Some NewConnPool |};
           smtp := {| smtp_host := Host us;
                      smtp_tls := fst (mode_flags ms);
                      smtp_insecure := snd (mode_flags ms) |} |},
   None).
Proof.
  intros Hui Hmi Hne Hus Hms. rewrite NewServer_unfold.
  rewrite (parseIMAPURL_parsed url_Parse _ imapURL ui Hui), Hmi.
  apply String.eqb_neq in Hne.
  destruct mi; rewrite Hne;
    rewrite (parseSMTPURL_parsed url_Parse _ smtpURL us Hus), Hms;
    by destruct ms.
Qed.

(** X10.  A rejected IMAP URL decides the error of [NewServer], whatever
    the SMTP URL is: the error is the one of the IMAP parser, a message that
    starts with "failed to parse IMAP server URL: " when [url.Parse] fails
    and is "unrecognized IMAP URL scheme: " followed by the scheme
    otherwise. *)
Theorem NewServer_imap_error_first (imapURL smtpURL : string) :
  url_accepted url_Parse imap_schemes imapURL = false →
  ∃ msg,
    NewServer NewConnPool url_Parse imapURL smtpURL
    = (None, Some (ErrorString msg))
    ∧ match url_Parse imapURL with
      | Err _ => String.prefix "failed to parse IMAP server URL: " msg = true
      | Ok u => msg = "unrecognized IMAP URL scheme: " ++ Scheme u
      end.
Proof.
  intros Hrej. rewrite NewServer_unfold. unfold url_accepted in Hrej.
  destruct (url_Parse imapURL) as [u | e] eqn:Hu.
  - rewrite (parseIMAPURL_parsed url_Parse _ imapURL u Hu).
    apply bool_decide_eq_false, scheme_mode_None_elem in Hrej.
    unfold imap_mode. rewrite Hrej. by eexists.
  - unfold parseIMAPURL. rewrite Hu. eexists. split; [reflexivity |].
    apply prefix_app.
Qed.

End NewServerPaths.

Lemma NewServer_succeeds_iff_witness :
  (∃ s, NewServer tt url.Parse "imap://mail.example.org"
          "smtps://relay.example.org" = (Some s, None))
  ∧ ¬ (∃ s, NewServer tt url.Parse "imap://mail.example.org"
              "relay.example.org:25" = (Some s, None)).
Proof.
  split.
  - apply (proj2 (NewServer_succeeds_iff tt url.Parse
                    "imap://mail.example.org" "smtps://relay.example.org")).
    split; [reflexivity | right; reflexivity].
  - intros H.
    apply (proj2 (NewServer_succeeds_iff tt url.Parse
                    "imap://mail.example.org" "relay.example.org:25")) in H.
    destruct H as [_ [H | H]]; discriminate.
Defined.

Lemma NewServer_configures_witness :
  NewServer tt url.Parse "imaps://mail.example.org"
    "smtp+insecure://relay.example.org:25" =
  (Some {| imap := {| imap_host := "mail.example.org"; imap_tls := true;
                      imap_insecure := false; imap_pool := Some tt |};
           smtp := {| smtp_host := "relay.example.org:25"; smtp_tls := false;
                      smtp_insecure := true |} |},
   None).
Proof.
  apply (NewServer_configures tt url.Parse "imaps://mail.example.org"
           "smtp+insecure://relay.example.org:25"
           {| Scheme := "imaps"; Host := "mail.example.org" |}
           {| Scheme := "smtp+insecure"; Host := "relay.example.org:25" |}
           TLS TLSInsecure).
  - reflexivity.
  - reflexivity.
  - discriminate.
  - reflexivity.
  - reflexivity.
Defined.

Lemma NewServer_imap_error_first_witness :
  ∃ msg, NewServer tt url.Parse "pop3://mail.example.org"
           "http://relay.example.org" = (None, Some (ErrorString msg))
         ∧ msg = "unrecognized IMAP URL scheme: pop3".
Proof.
  apply (NewServer_imap_error_first tt url.Parse "pop3://mail.example.org"
           "http://relay.example.org").
  reflexivity.
Defined.

(** ** The template functions *)

Module templateFacts.
Import templateFuncs.

Lemma format_each_app (l1 l2 : list (option imap.Address)) :
  format_each (l1 ++ l2) =
  match format_each l1, format_each l2 with
  | Some s1, Some s2 => Some (s1 ++ s2)%list
  | _, _ => None
  end.
Proof.
  induction l1 as [| [a |] l1 IH]; cbn.
  - by destruct (format_each l2).
  - rewrite IH. destruct (format_each l1), (format_each l2); done.
  - done.
Qed.

Lemma format_each_length (l : list (option imap.Address)) (s : list string) :
  format_each l = Some s → length s = length l.
Proof.
  revert s. induction l as [| [a |] l IH]; intros s; cbn.
  - by intros [= <-].
  - destruct (format_each l) as [s' |]; [| done].
    intros [= <-]. cbn. f_equal. by apply IH.
  - done.
Qed.

Lemma Join_app (l1 l2 : list string) (sep : string) :
  l1 ≠ [] → l2 ≠ [] →
  Join (l1 ++ l2) sep = Join l1 sep ++ sep ++ Join l2 sep.
Proof.
  intros H1 H2. induction l1 as [| x l1 IH]; [done |].
  destruct l1 as [| y l1].
  - cbn. by destruct l2.
  - change (Join ((x :: y :: l1) ++ l2) sep)
      with (x ++ sep ++ Join ((y :: l1) ++ l2) sep).
    rewrite IH by done.
    change (Join (x :: y :: l1) sep) with (x ++ sep ++ Join (y :: l1) sep).
    by rewrite !string_app_assoc.
Qed.

End templateFacts.

(** X11.  [formataddrlist] panics exactly when one of the addresses is a
    nil pointer.  Otherwise the empty list gives the empty string, and the
    text for two non-empty lists one after the other is the text of the
    first, a comma and a space, and the text of the second. *)
Theorem formataddrlist_app (l1 l2 : list (option imap.Address)) :
  (templateFuncs.formataddrlist l1 = None ↔ None ∈ l1)
  ∧ templateFuncs.formataddrlist [] = Some ""
  ∧ (l1 ≠ [] → l2 ≠ [] →
     ∀ s1 s2,
       templateFuncs.formataddrlist l1 = Some s1 →
       templateFuncs.formataddrlist l2 = Some s2 →
       templateFuncs.formataddrlist (l1 ++ l2) = Some (s1 ++ ", " ++ s2)).
Proof.
  split; [| split; [done |]].
  - unfold templateFuncs.formataddrlist.
    induction l1 as [| [a |] l1 IH]; cbn.
    + split; [done | intros H; by apply elem_of_nil in H].
    + rewrite elem_of_cons.
      destruct (templateFuncs.format_each l1) as [s |]; cbn in *.
      * split; [done |]. intros [? | H]; [done |]. by apply IH in H.
      * split; [intros _; right; by apply IH | done].
    + split; [intros _; apply list_elem_of_here | done].
  - intros H1 H2 s1 s2. unfold templateFuncs.formataddrlist.
    rewrite templateFacts.format_each_app.
    destruct (templateFuncs.format_each l1) as [t1 |] eqn:E1; [| done].
    destruct (templateFuncs.format_each l2) as [t2 |] eqn:E2; [| done].
    intros [= <-] [= <-]. f_equal.
    apply templateFacts.Join_app.
    + intros ->. apply templateFacts.format_each_length in E1.
      destruct l1; [done | discriminate].
    + intros ->. apply templateFacts.format_each_length in E2.
      destruct l2; [done | discriminate].
Qed.

(** X12.  [formatflag] changes the four flags \Seen, \Answered, \Flagged
    and \Draft only, and formatting twice is formatting once: no name it
    gives is itself a flag it would rename. *)
Theorem formatflag_idempotent (flag : string) :
  templateFuncs.formatflag (templateFuncs.formatflag flag)
  = templateFuncs.formatflag flag
  ∧ (templateFuncs.formatflag flag ≠ flag ↔
     flag ∈ [imap.SeenFlag; imap.AnsweredFlag; imap.FlaggedFlag;
             imap.DraftFlag]).
Proof.
  unfold templateFuncs.formatflag.
  rewrite !elem_of_cons, elem_of_nil.
  destruct (String.eqb_spec flag imap.SeenFlag) as [-> | H1].
  { split; [reflexivity |]. split; [by left | discriminate]. }
  destruct (String.eqb_spec flag imap.AnsweredFlag) as [-> | H2].
  { split; [reflexivity |]. split; [by right; left | discriminate]. }
  destruct (String.eqb_spec flag imap.FlaggedFlag) as [-> | H3].
  { split; [reflexivity |]. split; [by right; right; left | discriminate]. }
  destruct (String.eqb_spec flag imap.DraftFlag) as [-> | H4].
  { split; [reflexivity |].
    split; [by right; right; right; left | discriminate]. }
  split.
  - apply String.eqb_neq in H1, H2, H3, H4. by rewrite H1, H2, H3, H4.
  - split; [done |]. intros [? | [? | [? | [? | []]]]]; done.
Qed.

(** X13.  The flags that [ismutableflag] refuses are exactly \Answered,
    \Deleted and \Draft.  Of the flags that [formatflag] shows under another
    name, \Seen and \Flagged can be changed and \Answered and \Draft cannot;
    every flag shown under its own name can be changed, except \Deleted. *)
Theorem ismutableflag_formatflag (flag : string) :
  (templateFuncs.ismutableflag flag = false ↔
   flag ∈ [imap.AnsweredFlag; imap.DeletedFlag; imap.DraftFlag])
  ∧ (templateFuncs.formatflag flag ≠ flag →
     (templateFuncs.ismutableflag flag = true ↔
      flag ∈ [imap.SeenFlag; imap.FlaggedFlag]))
  ∧ (templateFuncs.formatflag flag = flag →
     flag ≠ imap.DeletedFlag →
     templateFuncs.ismutableflag flag = true).
Proof.
  unfold templateFuncs.ismutableflag, templateFuncs.formatflag.
  rewrite !elem_of_cons, elem_of_nil.
  destruct (String.eqb_spec flag imap.SeenFlag) as [-> | H1].
  { cbn. repeat split; try done; try (intros; by left).
    intros [? | [? | [? | []]]]; discriminate. }
  destruct (String.eqb_spec flag imap.AnsweredFlag) as [-> | H2].
  { cbn. repeat split; try done; try (intros; by left).
    intros [? | [? | []]]; discriminate. }
  destruct (String.eqb_spec flag imap.FlaggedFlag) as [-> | H3].
  { cbn. repeat split; try done; try (intros; by right; left).
    intros [? | [? | [? | []]]]; discriminate. }
  destruct (String.eqb_spec flag imap.DraftFlag) as [-> | H4].
  { cbn. repeat split; try done; try (intros; by right; right; left).
    intros [? | [? | []]]; discriminate. }
  destruct (String.eqb_spec flag imap.DeletedFlag) as [-> | H5].
  { cbn. repeat split; try done. intros; by right; left. }
  cbn. repeat split; try done.
  intros [? | [? | [? | []]]]; done.
Qed.

Lemma formataddrlist_app_witness :
  let bob := Some {| imap.PersonalName := "Bob"; imap.AtDomainList := "";
                     imap.MailboxName := "bob";
                     imap.HostName := "example.org" |} in
  let eve := Some {| imap.PersonalName := "Eve"; imap.AtDomainList := "";
                     imap.MailboxName := "eve";
                     imap.HostName := "example.net" |} in
  templateFuncs.formataddrlist ([bob] ++ [eve; bob]) =
  Some "Bob <bob@example.org>, Eve <eve@example.net>, Bob <bob@example.org>".
Proof.
  intros bob eve.
  apply (proj2 (proj2 (formataddrlist_app [bob] [eve; bob]))
           ltac:(discriminate) ltac:(discriminate)
           "Bob <bob@example.org>"
           "Eve <eve@example.net>, Bob <bob@example.org>"
           eq_refl eq_refl).
Defined.

(** ** The compose handler *)

Ltac run_page :=
  unfold handleCompose, handleGetPart, page_Render, page_Redirect,
    page_bind, call, defer, page_ret, page_panic;
  cbn.

Section ComposeFacts.
Context {ConnPool : Type}.
Variable PE : PageEnv ConnPool.

(** The message the compose handler builds from the form. *)
Local Abbreviation form_message ctx :=
  {| from := FormValue (request ctx) "from";
     to := [FormValue (request ctx) "to"];
     subject := FormValue (request ctx) "subject";
     text := FormValue (request ctx) "text" |}.

(** X14.  On a POST whose SMTP dial succeeds, the connection is closed
    exactly once, as the last call of the handler, whether the handler
    returns nil, returns an error or panics; and the handler dials once. *)
Theorem handleCompose_closes_connection (ctx : context ConnPool)
    (c : SmtpConn) :
  Method (request ctx) = "POST" →
  connectSMTP PE (server ctx) = Ok c →
  ∃ mid, fst (handleCompose PE ctx) = (EvConnectSMTP :: mid ++ [EvClose c])%list
    ∧ (∀ c', EvClose c' ∉ mid)
    ∧ EvConnectSMTP ∉ mid.
Proof.
  intros Hm Hdial. unfold handleCompose. rewrite Hm. run_page. rewrite Hdial.
  cbn.
  destruct (session ctx) as [sess |]; cbn.
  - destruct (Auth PE c _ _ _); cbn;
      [| destruct (sendMessage PE c _); cbn;
         [| destruct (Quit PE c); cbn ]];
      lazymatch goal with
      | |- ∃ mid, _ :: ?l = _ ∧ _ => exists (removelast l)
      end;
      (split; [reflexivity |]); cbn; (split; [intros c' Hin | intros Hin]);
      rewrite ?elem_of_cons, elem_of_nil in Hin;
      repeat destruct Hin as [Hin | Hin]; done.
  - exists []. split; [done |].
    split; [intros c' Hin | intros Hin]; by apply elem_of_nil in Hin.
Qed.

(** X15.  When the SMTP server refuses the session's credentials, nothing
    is sent: the handler authenticates, closes the connection and returns
    an HTTPError with status 403 that carries the server's answer, which the
    error handler sends to the client as it is, without logging it. *)
Theorem handleCompose_auth_failure (ctx : context ConnPool) (c : SmtpConn)
    (sess : Session) (err : error) (w : World ConnPool) :
  Method (request ctx) = "POST" →
  connectSMTP PE (server ctx) = Ok c →
  session ctx = Some sess →
  Auth PE c "" (username sess) (password sess) = Some err →
  handleCompose PE ctx =
    ([EvConnectSMTP; EvAuth c "" (username sess) (password sess); EvClose c],
     Some (Some (HTTPError 403 (Error_ err))))
  ∧ HTTPErrorHandler (HTTPError 403 (Error_ err)) w =
    Some (tt, {| pool := pool w;
                 trace := trace w ++
                   [EvString 403 ("code=403, message=" ++ Error_ err)] |}).
Proof.
  intros Hm Hdial Hsess Hauth. split.
  - unfold handleCompose. rewrite Hm. run_page. rewrite Hdial. cbn.
    rewrite Hsess. cbn. by rewrite Hauth.
  - reflexivity.
Qed.

(** X16.  The handler hands a message to the SMTP server only on a POST
    with a session whose credentials that server has accepted on the
    connection just dialled; the message has the sender, the subject and the
    text of the form and the form's "to" value as its one recipient. *)
Theorem handleCompose_sends_authenticated (ctx : context ConnPool)
    (c : SmtpConn) (msg : OutgoingMessage) :
  EvSendMessage c msg ∈ fst (handleCompose PE ctx) →
  Method (request ctx) = "POST"
  ∧ connectSMTP PE (server ctx) = Ok c
  ∧ (∃ sess, session ctx = Some sess
             ∧ Auth PE c "" (username sess) (password sess) = None)
  ∧ msg = form_message ctx.
Proof.
  unfold handleCompose.
  destruct (String.eqb_spec (Method (request ctx)) httpmore.MethodPost)
    as [Hm | Hm].
  - run_page. destruct (connectSMTP PE (server ctx)) as [c0 | e]; cbn.
    + destruct (session ctx) as [sess |]; cbn.
      * destruct (Auth PE c0 _ _ _) eqn:Hauth; cbn;
          [| destruct (sendMessage PE c0 _); cbn;
             [| destruct (Quit PE c0); cbn ]];
          rewrite ?elem_of_cons, elem_of_nil;
          intros Hin; repeat destruct Hin as [Hin | Hin]; try done;
          injection Hin as <- ->; (split; [done |]); (split; [done |]);
          (split; [| done]); by exists sess.
      * rewrite ?elem_of_cons, elem_of_nil.
        intros Hin; repeat destruct Hin as [Hin | Hin]; done.
    + rewrite ?elem_of_cons, elem_of_nil.
      intros Hin; repeat destruct Hin as [Hin | Hin]; done.
  - run_page. rewrite ?elem_of_cons, elem_of_nil.
    intros Hin; repeat destruct Hin as [Hin | Hin]; done.
Qed.

(** X17.  The handler redirects to the inbox exactly when the request is a
    POST with a session, and the dial, the authentication, the sending and
    the QUIT have all succeeded; on every other request that is not a POST
    it renders compose.html and makes no other call. *)
Theorem handleCompose_redirects_iff_sent (ctx : context ConnPool) :
  (Echo (EvRedirect 302 "/mailbox/INBOX") ∈ fst (handleCompose PE ctx) ↔
   Method (request ctx) = "POST"
   ∧ ∃ c sess, connectSMTP PE (server ctx) = Ok c
       ∧ session ctx = Some sess
       ∧ Auth PE c "" (username sess) (password sess) = None
       ∧ sendMessage PE c (form_message ctx) = None
       ∧ Quit PE c = None)
  ∧ (Method (request ctx) ≠ "POST" →
     handleCompose PE ctx = ([Echo (EvRender 200 "compose.html")], Some None)).
Proof.
  unfold handleCompose.
  destruct (String.eqb_spec (Method (request ctx)) httpmore.MethodPost)
    as [Hm | Hm]; [| split; [| done]].
  - split; [| done]. run_page.
    destruct (connectSMTP PE (server ctx)) as [c | e]; cbn.
    + destruct (session ctx) as [sess |]; cbn.
      * destruct (Auth PE c _ _ _) eqn:Hauth; cbn;
          [| destruct (sendMessage PE c _) eqn:Hsend; cbn;
             [| destruct (Quit PE c) eqn:Hquit; cbn ]];
          rewrite ?elem_of_cons, elem_of_nil; split;
          try (intros Hin; repeat destruct Hin as [Hin | Hin]; done);
          try (intros (_ & c' & sess' & [= <-] & [= <-] & H1 & H2 & H3);
               congruence).
        -- intros _. split; [done |]. by exists c, sess.
        -- intros _. do 4 right. by left.
      * rewrite ?elem_of_cons, elem_of_nil. split.
        -- intros Hin; repeat destruct Hin as [Hin | Hin]; done.
        -- intros (_ & c' & sess' & _ & ? & _). done.
    + rewrite ?elem_of_cons, elem_of_nil. split.
      * intros Hin; repeat destruct Hin as [Hin | Hin]; done.
      * intros (_ & c' & sess' & ? & _). done.
  - run_page. rewrite ?elem_of_cons, elem_of_nil. split.
    + intros Hin; repeat destruct Hin as [Hin | Hin]; done.
    + intros [? _]. done.
Qed.

End ComposeFacts.

(** The compose theorems at work: alice sends a message, and mallory's
    password is refused by the SMTP server. *)
Lemma handleCompose_closes_connection_witness :
  ∃ mid, fst (handleCompose DemoPages.env
                (DemoPages.compose_context "POST" DemoPages.alice))
         = (EvConnectSMTP :: mid ++ [EvClose 3%nat])%list
         ∧ (∀ c', EvClose c' ∉ mid)
         ∧ EvConnectSMTP ∉ mid.
Proof.
  apply (handleCompose_closes_connection DemoPages.env
           (DemoPages.compose_context "POST" DemoPages.alice) 3%nat).
  - reflexivity.
  - reflexivity.
Defined.

Lemma handleCompose_auth_failure_witness :
  let mallory := {| imapConn := 7%nat; username := "alice";
                    password := "guess" |} in
  handleCompose DemoPages.env (DemoPages.compose_context "POST" mallory) =
  ([EvConnectSMTP; EvAuth 3%nat "" "alice" "guess"; EvClose 3%nat],
   Some (Some (HTTPError 403 "535 authentication failed"))).
Proof.
  intros mallory.
  apply (proj1 (handleCompose_auth_failure DemoPages.env
                  (DemoPages.compose_context "POST" mallory) 3%nat mallory
                  (ErrorString "535 authentication failed") Demo.world0
                  eq_refl eq_refl eq_refl eq_refl)).
Defined.

Lemma handleCompose_sends_authenticated_witness :
  to {| from := "alice@example.org"; to := ["bob@example.org"];
        subject := "hi"; text := "hello" |} = ["bob@example.org"]
  ∧ Auth DemoPages.env 3%nat "" "alice" "secret" = None.
Proof.
  destruct (handleCompose_sends_authenticated DemoPages.env
              (DemoPages.compose_context "POST" DemoPages.alice) 3%nat
              {| from := "alice@example.org"; to := ["bob@example.org"];
                 subject := "hi"; text := "hello" |})
    as (_ & _ & (sess & Hs & Hauth) & _).
  - cbn. rewrite !elem_of_cons. right. right. by left.
  - split; [reflexivity |]. injection Hs as <-. exact Hauth.
Defined.

(** ** The message part handler *)

Section GetPartFacts.
Context {ConnPool : Type}.
Variable PE : PageEnv ConnPool.

Lemma EqualFold_lower (s t : string) :
  EqualFold s t = true ↔ url.lower s = url.lower t.
Proof. unfold EqualFold. apply String.eqb_eq. Qed.

(** What [handleGetPart] does once the part is fetched and its media type
    is known. *)
Lemma handleGetPart_fetched (ctx : context ConnPool) (rt : Route)
    (raw : bool) (uid : N) (path : list Z) (msg : nat) (part : Part)
    (mt : string) :
  parseUid PE (Param rt "uid") = Ok uid →
  parsePartPath PE (QueryParam rt "part") = Ok path →
  getMessagePart PE (conn ctx) (Param rt "mbox") uid path = Ok (msg, part) →
  part_ContentType part = Ok mt →
  let mimeType := if (length path =? 0)%nat then "message/rfc822" else mt in
  let fetch := EvGetMessagePart (conn ctx) (Param rt "mbox") uid path in
  handleGetPart PE ctx rt raw =
  if raw then
    (fetch ::
     (if negb (EqualFold mimeType "text/plain")
         || EqualFold (part_Disposition part) "attachment"
      then [EvSetHeader "Content-Disposition"
              (FormatMediaType PE "attachment"
                 (if negb (String.eqb (part_Filename part) "")
                  then [("filename", part_Filename part)] else []))]
      else []) ++
     [EvStream 200 mimeType (part_Body part)],
     Some match part_Body part with Ok _ => None | Err err => Some err end)
  else
    match (if lower_HasPrefix mimeType "text/" then part_Body part
           else Ok "") with
    | Err err =>
        ([fetch], Some (Some (Errorf "failed to read part body: " err)))
    | Ok body =>
        match conn ctx with
        | None => ([fetch], None)
        | Some c =>
            ([fetch;
              EvRenderMessage 200 "message.html" (Mailbox PE c) msg body
                (QueryParam rt "part")],
             Some None)
        end
    end.
Proof.
  intros Huid Hpath Hfetch Hct mimeType fetch. subst mimeType fetch.
  unfold handleGetPart. rewrite Huid, Hpath. run_page. rewrite Hfetch. cbn.
  rewrite Hct. destruct raw.
  - run_page.
    destruct (negb _ || _); cbn; by destruct (part_Body part).
  - run_page. destruct (lower_HasPrefix _ _); cbn.
    + destruct (part_Body part); cbn; [| done]. by destruct (conn ctx).
    + by destruct (conn ctx).
Qed.

(** X18.  A UID or a part path that does not parse is answered with an
    HTTPError of status 400 that carries the parser's message, and nothing
    is fetched or written; a part is fetched only for the UID and the part
    path that the two parsers returned, from the mailbox named in the route,
    on the connection of the context. *)
Theorem handleGetPart_bad_request (ctx : context ConnPool) (rt : Route)
    (raw : bool) :
  (∀ err, parseUid PE (Param rt "uid") = Err err
          ∨ (∃ uid, parseUid PE (Param rt "uid") = Ok uid)
            ∧ parsePartPath PE (QueryParam rt "part") = Err err →
          handleGetPart PE ctx rt raw =
          ([], Some (Some (HTTPError 400 (Error_ err)))))
  ∧ (∀ c mbox uid path,
       EvGetMessagePart c mbox uid path ∈ fst (handleGetPart PE ctx rt raw) →
       parseUid PE (Param rt "uid") = Ok uid
       ∧ parsePartPath PE (QueryParam rt "part") = Ok path
       ∧ mbox = Param rt "mbox"
       ∧ c = conn ctx).
Proof.
  split.
  - intros err [Huid | [[uid Huid] Hpath]]; unfold handleGetPart;
      rewrite Huid; [done |]. by rewrite Hpath.
  - intros c mbox uid path.
    destruct (parseUid PE (Param rt "uid")) as [uid0 | e] eqn:Huid.
    2:{ unfold handleGetPart. rewrite Huid. cbn. by intros ?%elem_of_nil. }
    destruct (parsePartPath PE (QueryParam rt "part")) as [path0 | e]
      eqn:Hpath.
    2:{ unfold handleGetPart. rewrite Huid, Hpath. cbn.
        by intros ?%elem_of_nil. }
    assert (∀ evs r, handleGetPart PE ctx rt raw = (evs, r) →
              ∃ rest, evs = EvGetMessagePart (conn ctx) (Param rt "mbox")
                              uid0 path0 :: rest
                      ∧ ∀ c1 m1 u1 p1, EvGetMessagePart c1 m1 u1 p1 ∉ rest)
      as Hshape.
    { intros evs r. unfold handleGetPart. rewrite Huid, Hpath. run_page.
      destruct (getMessagePart PE _ _ _ _) as [[msg part] | e]; cbn.
      2:{ intros [= <- <-]. exists []. split; [done |].
          intros ? ? ? ? ?%elem_of_nil. done. }
      destruct (part_ContentType part) as [mt | e]; cbn.
      2:{ intros [= <- <-]. exists []. split; [done |].
          intros ? ? ? ? ?%elem_of_nil. done. }
      destruct raw.
      - destruct (negb _ || _); cbn; intros [= <- <-]; eexists;
          (split; [reflexivity |]); intros c1 m1 u1 p1 Hin;
          rewrite ?elem_of_cons, elem_of_nil in Hin;
          repeat destruct Hin as [Hin | Hin]; done.
      - destruct (lower_HasPrefix _ _); cbn;
          [destruct (part_Body part); cbn |];
          try destruct (conn ctx); cbn; intros [= <- <-]; eexists;
          (split; [reflexivity |]); intros c1 m1 u1 p1 Hin;
          rewrite ?elem_of_cons, ?elem_of_nil in Hin;
          repeat destruct Hin as [Hin | Hin]; done. }
    destruct (handleGetPart PE ctx rt raw) as [evs r].
    destruct (Hshape evs r eq_refl) as (rest & -> & Hrest). cbn.
    rewrite elem_of_cons. intros [[= -> -> -> ->] | Hin]; [done |].
    by apply Hrest in Hin.
Qed.

End GetPartFacts.

Section GetPartContent.
Context {ConnPool : Type}.
Variable PE : PageEnv ConnPool.

(** The calls of [handleGetPart] contain a stream or a rendering only when
    both route parameters have parsed, the part has been fetched and its
    media type has been read. *)
Lemma handleGetPart_answered (ctx : context ConnPool) (rt : Route)
    (raw : bool) :
  (∃ uid path msg part mt,
     parseUid PE (Param rt "uid") = Ok uid
     ∧ parsePartPath PE (QueryParam rt "part") = Ok path
     ∧ getMessagePart PE (conn ctx) (Param rt "mbox") uid path
       = Ok (msg, part)
     ∧ part_ContentType part = Ok mt)
  ∨ (∀ ev, ev ∈ fst (handleGetPart PE ctx rt raw) →
           ∃ c mbox uid path, ev = EvGetMessagePart c mbox uid path).
Proof.
  destruct (parseUid PE (Param rt "uid")) as [uid | e] eqn:Huid.
  2:{ right. unfold handleGetPart. rewrite Huid. cbn.
      by intros ev ?%elem_of_nil. }
  destruct (parsePartPath PE (QueryParam rt "part")) as [path | e] eqn:Hpath.
  2:{ right. unfold handleGetPart. rewrite Huid, Hpath. cbn.
      by intros ev ?%elem_of_nil. }
  destruct (getMessagePart PE (conn ctx) (Param rt "mbox") uid path)
    as [[msg part] | e] eqn:Hfetch.
  2:{ right. unfold handleGetPart. rewrite Huid, Hpath. run_page.
      rewrite Hfetch. cbn. intros ev ->%list_elem_of_singleton. by eexists _, _, _, _. }
  destruct (part_ContentType part) as [mt | e] eqn:Hct.
  2:{ right. unfold handleGetPart. rewrite Huid, Hpath. run_page.
      rewrite Hfetch. cbn. rewrite Hct. cbn.
      intros ev ->%list_elem_of_singleton. by eexists _, _, _, _. }
  left. by exists uid, path, msg, part, mt.
Qed.

(** X19.  A raw part is streamed without a Content-Disposition header only
    when it is a part below the top of the message whose media type is
    text/plain, in any capitalisation, and whose own disposition is not
    "attachment"; anything else streamed raw, an HTML part for one, is sent
    as an attachment. *)
Theorem handleGetPart_inline_only_plain_text (ctx : context ConnPool)
    (rt : Route) (code : Z) (ct : string) (body : result string) :
  EvStream code ct body ∈ fst (handleGetPart PE ctx rt true) →
  (∀ key value, EvSetHeader key value ∉ fst (handleGetPart PE ctx rt true)) →
  ∃ uid path msg part,
    parseUid PE (Param rt "uid") = Ok uid
    ∧ parsePartPath PE (QueryParam rt "part") = Ok path
    ∧ getMessagePart PE (conn ctx) (Param rt "mbox") uid path = Ok (msg, part)
    ∧ path ≠ []
    ∧ part_ContentType part = Ok ct
    ∧ url.lower ct = "text/plain"
    ∧ url.lower (part_Disposition part) ≠ "attachment"
    ∧ body = part_Body part
    ∧ code = 200.
Proof.
  intros Hstream Hnohdr.
  destruct (handleGetPart_answered ctx rt true)
    as [(uid & path & msg & part & mt & Huid & Hpath & Hfetch & Hct) | Hnone].
  2:{ apply Hnone in Hstream as (? & ? & ? & ? & ?). discriminate. }
  pose proof (handleGetPart_fetched PE ctx rt true uid path msg part mt
                Huid Hpath Hfetch Hct) as Hrun. cbn zeta in Hrun.
  rewrite Hrun in Hstream, Hnohdr. cbn [fst] in Hstream, Hnohdr.
  destruct (negb (EqualFold _ "text/plain") || EqualFold _ "attachment")
    eqn:Hcond.
  { exfalso. eapply Hnohdr. cbn. apply list_elem_of_further, list_elem_of_here. }
  apply orb_false_iff in Hcond as [Hplain Hatt].
  apply negb_false_iff, EqualFold_lower in Hplain.
  cbn in Hstream. rewrite !elem_of_cons, elem_of_nil in Hstream.
  destruct Hstream as [? | [[= -> -> ->] | []]]; [discriminate |].
  destruct path as [| i path].
  { cbn in Hplain. discriminate. }
  cbn [length Nat.eqb] in *.
  exists uid, (i :: path), msg, part. repeat split; try done.
  intros Heq. unfold EqualFold in Hatt. rewrite Heq in Hatt. discriminate.
Qed.

(** X20.  For the whole message (an empty part path) the Content-Type
    header must still parse: when it does not, the request fails in both
    modes with "failed to parse part Content-Type:" and the cause, after
    the fetch and before anything is written.  When it parses, the message
    is served as message/rfc822 whatever type and disposition the header
    declares: raw, it is streamed as an attachment that keeps the declared
    filename; rendered, the page shows an empty body and the body is not
    read, so a body that cannot be read does not fail the request. *)
Theorem handleGetPart_whole_message (ctx : context ConnPool) (rt : Route)
    (uid : N) (msg : nat) (part : Part) :
  parseUid PE (Param rt "uid") = Ok uid →
  parsePartPath PE (QueryParam rt "part") = Ok [] →
  getMessagePart PE (conn ctx) (Param rt "mbox") uid [] = Ok (msg, part) →
  let fetch := EvGetMessagePart (conn ctx) (Param rt "mbox") uid [] in
  match part_ContentType part with
  | Err err =>
      ∀ raw,
        handleGetPart PE ctx rt raw =
        ([fetch],
         Some (Some (ErrorString ("failed to parse part Content-Type: "
                                  ++ Error_ err))))
  | Ok _ =>
      handleGetPart PE ctx rt true =
        ([fetch;
          EvSetHeader "Content-Disposition"
            (FormatMediaType PE "attachment"
               (if String.eqb (part_Filename part) "" then []
                else [("filename", part_Filename part)]));
          EvStream 200 "message/rfc822" (part_Body part)],
         Some match part_Body part with Ok _ => None | Err err => Some err end)
      ∧ (∀ c, conn ctx = Some c →
           handleGetPart PE ctx rt false =
           ([fetch;
             EvRenderMessage 200 "message.html" (Mailbox PE c) msg ""
               (QueryParam rt "part")],
            Some None))
  end.
Proof.
  intros Huid Hpath Hfetch fetch. subst fetch.
  destruct (part_ContentType part) as [mt | err] eqn:Hct.
  - split.
    + rewrite (handleGetPart_fetched PE ctx rt true uid [] msg part mt
                 Huid Hpath Hfetch Hct).
      cbn. by destruct (String.eqb (part_Filename part) "").
    + intros c Hc.
      rewrite (handleGetPart_fetched PE ctx rt false uid [] msg part mt
                 Huid Hpath Hfetch Hct).
      cbn. by rewrite Hc.
  - intros raw. unfold handleGetPart. rewrite Huid, Hpath. run_page.
    rewrite Hfetch. cbn. by rewrite Hct.
Qed.

(** X21.  The message page shows a body only for a part below the top of
    the message whose media type starts with text/, in any capitalisation;
    the body shown is then the content of that part. *)
Theorem handleGetPart_body_only_text (ctx : context ConnPool) (rt : Route)
    (code : Z) (name mailbox : string) (msg : nat) (body partPath : string) :
  EvRenderMessage code name mailbox msg body partPath
    ∈ fst (handleGetPart PE ctx rt false) →
  body ≠ "" →
  ∃ uid path part mt,
    parseUid PE (Param rt "uid") = Ok uid
    ∧ parsePartPath PE (QueryParam rt "part") = Ok path
    ∧ getMessagePart PE (conn ctx) (Param rt "mbox") uid path = Ok (msg, part)
    ∧ path ≠ []
    ∧ part_ContentType part = Ok mt
    ∧ String.prefix "text/" (url.lower mt) = true
    ∧ part_Body part = Ok body.
Proof.
  intros Hrender Hbody.
  destruct (handleGetPart_answered ctx rt false)
    as [(uid & path & msg0 & part & mt & Huid & Hpath & Hfetch & Hct) | Hnone].
  2:{ apply Hnone in Hrender as (? & ? & ? & ? & ?). discriminate. }
  pose proof (handleGetPart_fetched PE ctx rt false uid path msg0 part mt
                Huid Hpath Hfetch Hct) as Hrun. cbn zeta in Hrun.
  rewrite Hrun in Hrender. clear Hrun.
  destruct path as [| i path].
  { cbn [length Nat.eqb] in Hrender.
    change (lower_HasPrefix "message/rfc822" "text/") with false in Hrender.
    destruct (conn ctx); cbn in Hrender;
      rewrite ?elem_of_cons, elem_of_nil in Hrender;
      repeat destruct Hrender as [Hrender | Hrender]; try done.
    injection Hrender as _ _ _ _ -> _. done. }
  cbn [length Nat.eqb] in Hrender. unfold lower_HasPrefix in Hrender.
  destruct (String.prefix "text/" (url.lower mt)) eqn:Hprefix.
  - destruct (part_Body part) as [b | e] eqn:Hb; cbn in Hrender.
    + destruct (conn ctx); cbn in Hrender;
        rewrite ?elem_of_cons, elem_of_nil in Hrender;
        repeat destruct Hrender as [Hrender | Hrender]; try done.
      injection Hrender as _ _ _ -> -> _.
      exists uid, (i :: path), part, mt. by repeat split.
    + rewrite ?elem_of_cons, elem_of_nil in Hrender.
      repeat destruct Hrender as [Hrender | Hrender]; done.
  - destruct (conn ctx); cbn in Hrender;
      rewrite ?elem_of_cons, elem_of_nil in Hrender;
      repeat destruct Hrender as [Hrender | Hrender]; try done.
    injection Hrender as _ _ _ _ -> _. done.
Qed.

End GetPartContent.

(** The message part theorems at work on a message whose part 1 is HTML
    and whose part 2 is plain text. *)
Lemma handleGetPart_inline_only_plain_text_witness :
  ∃ uid path msg part,
    parseUid DemoPages.env "42" = Ok uid
    ∧ parsePartPath DemoPages.env "2" = Ok path
    ∧ getMessagePart DemoPages.env (Some 7%nat) "INBOX" uid path
      = Ok (msg, part)
    ∧ path ≠ []
    ∧ part_ContentType part = Ok "text/plain"
    ∧ url.lower "text/plain" = "text/plain"
    ∧ url.lower (part_Disposition part) ≠ "attachment"
    ∧ Ok "hello" = part_Body part
    ∧ 200 = 200.
Proof.
  apply (handleGetPart_inline_only_plain_text DemoPages.env
           DemoPages.message_context (DemoPages.message_route "42" "2")
           200 "text/plain" (Ok "hello")).
  - apply list_elem_of_further, list_elem_of_here.
  - intros key value Hin.
    apply elem_of_cons in Hin as [Hin | Hin]; [discriminate |].
    apply elem_of_cons in Hin as [Hin | Hin]; [discriminate |].
    by apply elem_of_nil in Hin.
Defined.

Lemma handleGetPart_whole_message_witness :
  handleGetPart DemoPages.env DemoPages.message_context
    (DemoPages.message_route "42" "") true =
  ([EvGetMessagePart (Some 7%nat) "INBOX" 42 [];
    EvSetHeader "Content-Disposition" "attachment";
    EvStream 200 "message/rfc822" (Ok "<p>hello</p>")],
   Some None).
Proof.
  apply (proj1 (handleGetPart_whole_message DemoPages.env
                  DemoPages.message_context (DemoPages.message_route "42" "")
                  42%N 1%nat DemoPages.html_part
                  eq_refl eq_refl eq_refl)).
Defined.

Lemma handleGetPart_body_only_text_witness :
  ∃ uid path part mt,
    parseUid DemoPages.env "42" = Ok uid
    ∧ parsePartPath DemoPages.env "2" = Ok path
    ∧ getMessagePart DemoPages.env (Some 7%nat) "INBOX" uid path
      = Ok (1%nat, part)
    ∧ path ≠ []
    ∧ part_ContentType part = Ok mt
    ∧ String.prefix "text/" (url.lower mt) = true
    ∧ part_Body part = Ok "hello".
Proof.
  apply (handleGetPart_body_only_text DemoPages.env
           DemoPages.message_context (DemoPages.message_route "42" "2")
           200 "message.html" "INBOX" 1%nat "hello" "2").
  - apply list_elem_of_further, list_elem_of_here.
  - discriminate.
Defined.
